(** * Rego conformance helpers of the constraint framework client

  A shallow embedding of [constraint/pkg/client/rego_helpers.go]:
  [ensureRegoConformance], [packageRef], [makeInvalidRootFieldErr],
  [Errors.Error], [checkDataAccess], [requireRules] and [getRuleArity],
  together with the part of the OPA [ast] package and of Go's [strings]
  package that these functions call. *)

From Stdlib Require Import ZArith Ascii String List.
From stdpp Require Import base option list strings pretty gmap fin_maps.

(** ** Go's [strings] package, as far as the helpers use it *)

Module strings.

(** [strings.Join(elems, sep)]. *)
Fixpoint Join (elems : list string) (sep : string) : string :=
  match elems with
  | [] => ""
  | e :: rest =>
      match rest with
      | [] => e
      | _ :: _ => e +:+ sep +:+ Join rest sep
      end
  end.

(** [strings.Split(s, sep)] for a separator of one byte, the only way the
    helpers call it ([strings.Split(path, ".")]): the pieces between the
    separators, one piece more than there are separators. *)
Fixpoint Split (s : string) (sep : ascii) : list string :=
  match s with
  | EmptyString => [""]
  | String c s' =>
      if Ascii.eqb c sep then "" :: Split s' sep
      else match Split s' sep with
           | [] => [String c ""]
           | w :: ws => String c w :: ws
           end
  end.

End strings.

(** ** The OPA [ast] package

    The abstract syntax the helpers work on. The package is OPA's, a library
    the client imports; what is written here is its data model and the
    methods the helpers call, as the library documents them. Terms carry a
    value and a source location; the location plays no part in the helpers,
    so a term is identified with its value. Objects and sets list their
    members in the order in which [Foreach] goes through them. *)

Module ast.

#[local] Unset Elimination Schemes.

Inductive Value : Type :=
| Null
| Boolean (b : bool)
| Number (n : string)
| String (s : string)
| Var (v : string)
| Ref (r : list Value)
| Array (a : list Value)
| Object (o : list (Value * Value))
| Set_ (s : list Value)
| ArrayComprehension (t : Value) (body : list Expr)
| ObjectComprehension (k v : Value) (body : list Expr)
| SetComprehension (t : Value) (body : list Expr)
| Call (c : list Value)
with Expr : Type :=
| MkExpr (Negated : bool) (Terms : Value + list Value)
         (With : list (Value * Value)).

#[local] Set Elimination Schemes.

Abbreviation Term := Value (only parsing).
Abbreviation Body := (list Expr) (only parsing).

Record Head := MkHead {
  Name : string;
  Args : list Term;
  Key : option Term;
  HeadValue : option Term
}.

#[local] Unset Elimination Schemes.

Inductive Rule : Type :=
| MkRule (Default : bool) (head : Head) (body : Body) (Else : option Rule).

#[local] Set Elimination Schemes.

Definition RuleHead (r : Rule) : Head :=
  match r with MkRule _ h _ _ => h end.

Record Import := MkImport { ImportPath : Term; Alias : string }.

Record Package := MkPackage { Path : list Term }.

Record Module := MkModule {
  Pkg : Package;
  Imports : list Import;
  Rules : list Rule
}.

(** [DefaultRootDocument = VarTerm("data")]; [DefaultRootRef] is the
    reference made of that single term. *)
Definition DefaultRootDocument : Term := Var "data".
Definition DefaultRootRef : list Term := [DefaultRootDocument].

(** [t.Equal(DefaultRootDocument)]: only the variable named [data] compares
    equal to it. *)
Definition EqualRoot (t : Term) : bool :=
  match t with
  | Var v => if decide (v = "data") then true else false
  | _ => false
  end.

(** [ref.HasPrefix(DefaultRootRef)]: false when the prefix is longer than
    the reference, else the first term is compared. *)
Definition HasPrefixRoot (ref : list Term) : bool :=
  match ref with
  | [] => false
  | t :: _ => EqualRoot t
  end.

(** [IsGround]: scalars are ground, variables are not; a reference is ground
    when the terms after its head are; collections when all members are. *)
Fixpoint IsGround (v : Value) : bool :=
  match v with
  | Null | Boolean _ | Number _ | String _ => true
  | Var _ => false
  | Ref r =>
      match r with
      | [] => true
      | _ :: tl => forallb IsGround tl
      end
  | Array a => forallb IsGround a
  | Object o => forallb (fun kv => IsGround kv.1 && IsGround kv.2) o
  | Set_ s => forallb IsGround s
  | ArrayComprehension t b => IsGround t && forallb ExprIsGround b
  | ObjectComprehension k x b =>
      IsGround k && IsGround x && forallb ExprIsGround b
  | SetComprehension t b => IsGround t && forallb ExprIsGround b
  | Call c => forallb IsGround c
  end
with ExprIsGround (e : Expr) : bool :=
  match e with
  | MkExpr _ (inl t) _ => IsGround t
  | MkExpr _ (inr ts) _ =>
      match ts with
      | [] => true
      | _ :: tl => forallb IsGround tl
      end
  end.

(** *** [Walk] with a [GenericVisitor] built by [WalkRefs]

    [WalkRefs(x, f)] calls [f] on every reference under [x]; when [f]
    returns [true] the nodes under that reference are not visited, when it
    returns [false] the walk goes on into the reference's terms. The
    callback of the Go code is a closure that appends to a captured slice;
    here it threads its state [St]. *)
Section Walk.

Context {St : Type} (f : list Term -> St -> bool * St).

Fixpoint WalkTerm (t : Value) (s : St) {struct t} : St :=
  match t with
  | Null | Boolean _ | Number _ | String _ | Var _ => s
  | Ref r =>
      let '(stop, s1) := f r s in
      if stop then s1 else foldl (fun s x => WalkTerm x s) s1 r
  | Array a => foldl (fun s x => WalkTerm x s) s a
  | Object o => foldl (fun s kv => WalkTerm kv.2 (WalkTerm kv.1 s)) s o
  | Set_ xs => foldl (fun s x => WalkTerm x s) s xs
  | ArrayComprehension t b =>
      foldl (fun s e => WalkExpr e s) (WalkTerm t s) b
  | ObjectComprehension k x b =>
      foldl (fun s e => WalkExpr e s) (WalkTerm x (WalkTerm k s)) b
  | SetComprehension t b =>
      foldl (fun s e => WalkExpr e s) (WalkTerm t s) b
  | Call c => foldl (fun s x => WalkTerm x s) s c
  end
with WalkExpr (e : Expr) (s : St) {struct e} : St :=
  match e with
  | MkExpr _ ts w =>
      let s1 := match ts with
                | inl t => WalkTerm t s
                | inr l => foldl (fun s x => WalkTerm x s) s l
                end in
      foldl (fun s tv => WalkTerm tv.2 (WalkTerm tv.1 s)) s1 w
  end.

Definition WalkBody (b : Body) (s : St) : St :=
  foldl (fun s e => WalkExpr e s) s b.

(** The name of a head is a variable, not a reference: the walk passes it. *)
Definition WalkHead (h : Head) (s : St) : St :=
  let s1 := foldl (fun s x => WalkTerm x s) s (Args h) in
  let s2 := match Key h with Some k => WalkTerm k s1 | None => s1 end in
  match HeadValue h with Some v => WalkTerm v s2 | None => s2 end.

Fixpoint WalkRule (r : Rule) (s : St) : St :=
  match r with
  | MkRule _ h b els =>
      let s1 := WalkBody b (WalkHead h s) in
      match els with
      | Some r' => WalkRule r' s1
      | None => s1
      end
  end.

Definition WalkImport (i : Import) (s : St) : St :=
  WalkTerm (ImportPath i) s.

(** The path of a package is a reference itself. *)
Definition WalkPackage (p : Package) (s : St) : St :=
  WalkTerm (Ref (Path p)) s.

Definition WalkRefs (m : Module) (s : St) : St :=
  let s1 := WalkPackage (Pkg m) s in
  let s2 := foldl (fun s i => WalkImport i s) s1 (Imports m) in
  foldl (fun s r => WalkRule r s) s2 (Rules m).

End Walk.

End ast.

(** ** The client helpers of [rego_helpers.go] *)

Module client.
Import ast.

Definition newline : string := String.String (ascii_of_nat 10) EmptyString.

#[local] Unset Elimination Schemes.

(** The errors the helpers build. Go has them as values made by
    [errors.New] and [fmt.Errorf], told apart by their text only; here each
    format string is a constructor that keeps the formatted arguments, and
    [errorText] below gives the text. *)
Inductive error : Type :=
| EmptySource
    (* errors.New("Rego source code is empty") *)
| ParseError (diagnostics : string)
    (* the error of ast.ParseModule, handed on as it is *)
| ImportsUsed
    (* errors.New("Use of the `import` keyword is not allowed") *)
| MissingField (r : list Term)
    (* "All references to `data` must access a field of `data`: %s" *)
| LiteralAccess (r : list Term)
    (* "Fields of `data` must be accessed with a literal value ...: %s" *)
| InvalidRootField (val : Value) (validFields : list string)
    (* "Invalid `data` field: %s. Valid fields are: %s" *)
| MissingRule (name : string)
    (* "Missing required rule: %s" *)
| ArityMismatch (name : string) (actual want : Z)
    (* "Rule %s has arity %d, want %d" *)
| InvalidSignatureElems (v : list Term)
    (* "Invalid rule signature: only single variables or arrays of
       variables or objects allowed: %s" *)
| InvalidSignatureShape (t : Term)
    (* "Invalid rule signature, only variables or arrays allowed: %s" *)
| Aggregate (errs : list error).
    (* a value of type Errors returned as an error *)

#[local] Set Elimination Schemes.

(** Go's [error] interface: anything with an [Error() string] method. *)
Class GoError (E : Type) := Error : E -> string.

(** [type Errors []error] and its method [Error]:
<<
    s := make([]string, len(errs))
    for _, e := range errs { s = append(s, e.Error()) }
    return strings.Join(s, "\n")
>>
    [make([]string, n)] is a slice of [n] empty strings, and [append] adds
    after them. *)
Definition Errors_Error {E : Type} `{GoError E} (errs : list E) : string :=
  let s := replicate (length errs) "" in
  let s := foldl (fun s e => s ++ [Error e]) s errs in
  strings.Join s newline.

(** The text of an error. [TermString] is OPA's [String()] on terms and
    values, which [%s] calls. *)
Section Messages.

Variable TermString : Term -> string.

Fixpoint errorText (e : error) : string :=
  match e with
  | EmptySource => "Rego source code is empty"
  | ParseError diagnostics => diagnostics
  | ImportsUsed => "Use of the `import` keyword is not allowed"
  | MissingField r =>
      "All references to `data` must access a field of `data`: "
      +:+ TermString (Ref r)
  | LiteralAccess r =>
      "Fields of `data` must be accessed with a literal value (e.g. `data.inventory`, not `data[var]`): "
      +:+ TermString (Ref r)
  | InvalidRootField val validFields =>
      "Invalid `data` field: " +:+ TermString val
      +:+ ". Valid fields are: " +:+ strings.Join validFields ", "
  | MissingRule name => "Missing required rule: " +:+ name
  | ArityMismatch name actual want =>
      "Rule " +:+ name +:+ " has arity " +:+ pretty actual
      +:+ ", want " +:+ pretty want
  | InvalidSignatureElems v =>
      "Invalid rule signature: only single variables or arrays of variables or objects allowed: "
      +:+ TermString (Array v)
  | InvalidSignatureShape t =>
      "Invalid rule signature, only variables or arrays allowed: "
      +:+ TermString t
  | Aggregate errs => @Errors_Error error errorText errs
  end.

End Messages.

(** The invalid-signature errors: [getRuleArity] has two format strings for
    them. *)
Definition isInvalidSignature (e : error) : bool :=
  match e with
  | InvalidSignatureElems _ | InvalidSignatureShape _ => true
  | _ => false
  end.

(** A Go call either returns or panics (a nil pointer is dereferenced). *)
Inductive Outcome (A : Type) : Type :=
| Returns (a : A)
| Panics.
Arguments Returns {A} a.
Arguments Panics {A}.

(** [packageRef] constructs a Ref to the provided package path string. *)
Definition packageRef (path : string) : list Term :=
  let pathParts := strings.Split path "." in
  foldl (fun packageRef v => packageRef ++ [String v]) [Var "data"] pathParts.

(** [makeInvalidRootFieldErr]: the valid fields are listed in the order in
    which the map is ranged over. *)
Definition makeInvalidRootFieldErr (val : Value) (allowed : gmap string bool)
  : error :=
  let validFields :=
    foldl (fun validFields kv => validFields ++ [kv.1]) [] (map_to_list allowed)
  in InvalidRootField val validFields.

(** Currently rules should only access data.inventory *)
Definition validDataFields : gmap string bool := {[ "inventory" := true ]}.

(** The closure given to [ast.WalkRefs] by [checkDataAccess]; the captured
    slice [errs] is its state. Every path returns [false]. *)
Definition checkRef (r : list Term) (errs : list error) : bool * list error :=
  if HasPrefixRoot r then
    match r with
    | [] | [_] => (false, errs ++ [MissingField r])
    | _ :: r1 :: _ =>
        if negb (IsGround r1) then (false, errs ++ [LiteralAccess r])
        else
          let v := r1 in
          match v with
          | String val =>
              if negb (default false (validDataFields !! val))
              then (false, errs ++ [makeInvalidRootFieldErr v validDataFields])
              else (false, errs)
          | _ => (false, errs ++ [makeInvalidRootFieldErr v validDataFields])
          end
    end
  else (false, errs).

(** [checkDataAccess] makes sure that data is only referenced in terms of
    valid subfields. A nil [Errors] is the empty list. *)
Definition checkDataAccess (module : Module) : list error :=
  let errs := WalkRefs checkRef module [] in
  if decide (0 < length errs) then errs else [].

(** [getRuleArity] returns the arity of a rule, assuming only no variables, a
    single variable, or an array of variables. *)
Definition getRuleArity (r : Rule) : Z * option error :=
  let t := Key (RuleHead r) in
  match t with
  | None => (0%Z, None)
  | Some t =>
      match t with
      | Var _ => (1%Z, None)
      | Array v =>
          let errs :=
            foldl (fun errs e =>
                     match e with
                     | Var _ => errs
                     | Object _ => errs
                     | _ => true
                     end) false v in
          if errs then (0%Z, Some (InvalidSignatureElems v))
          else (Z.of_nat (length v), None)
      | _ => (0%Z, Some (InvalidSignatureShape t))
      end
  end.

(** The first loop of [requireRules]: rule name -> arity, stopping at the
    first rule whose arity cannot be told. *)
Fixpoint collectArities (rules : list Rule) (arities : gmap string Z)
  : gmap string Z + error :=
  match rules with
  | [] => inl arities
  | rule :: rest =>
      let name := Name (RuleHead rule) in
      match getRuleArity rule with
      | (_, Some err) => inr err
      | (arity, None) => collectArities rest (<[ name := arity ]> arities)
      end
  end.

(** The body of the second loop of [requireRules]. *)
Definition checkRequired (arities : gmap string Z) (errs : list error)
  (req : string * Z) : list error :=
  let '(name, arity) := req in
  match arities !! name with
  | None => errs ++ [MissingRule name]
  | Some actual =>
      if decide (arity ≠ actual)
      then errs ++ [ArityMismatch name actual arity]
      else errs
  end.

Section Helpers.

(** [ast.ParseModule(filename, input)] returns a module pointer and an error,
    either of which may be nil; the error is the parser's own, known here by
    its diagnostics. [module.String()] is OPA's printer. *)
Variable ParseModule : string -> string -> option Module * option string.
Variable ModuleString : Module -> string.

Definition setPath (module : Module) (path : list Term) : Module :=
  MkModule (MkPackage path) (Imports module) (Rules module).

(** [ensureRegoConformance] rewrites the package path and ensures there is no
    access of [data] beyond the whitelisted bits. *)
Definition ensureRegoConformance (kind path rego : string)
  : Outcome (string * option error) :=
  if decide (rego = "") then Returns ("", Some EmptySource)
  else
    match ParseModule kind rego with
    | (_, Some err) => Returns ("", Some (ParseError err))
    | (None, None) => Panics
    | (Some module, None) =>
        if decide (length (Imports module) ≠ 0)
        then Returns ("", Some ImportsUsed)
        else
          (* Temporarily unset Package.Path *)
          let module := setPath module [] in
          match checkDataAccess module with
          | (_ :: _) as err => Returns ("", Some (Aggregate err))
          | [] =>
              let module := setPath module (packageRef path) in
              Returns (ModuleString module, None)
          end
    end.

(** [requireRules] makes sure the listed rules are specified with the
    required arity. Go ranges over the map [reqs] in an order of the
    runtime's choosing; [order] is that order. *)
Definition requireRulesRange (name rego : string) (order : list (string * Z))
  : Outcome (option error) :=
  match ParseModule name rego with
  | (_, Some err) => Returns (Some (ParseError err))
  | (None, None) => Panics
  | (Some module, None) =>
      match collectArities (Rules module) ∅ with
      | inr err => Returns (Some err)
      | inl arities =>
          let errs := foldl (checkRequired arities) [] order in
          if decide (length errs ≠ 0) then Returns (Some (Aggregate errs))
          else Returns None
      end
  end.

(** An order in which the entries of [reqs] may be ranged over. *)
Definition rangeOf (reqs : gmap string Z) (order : list (string * Z)) : Prop :=
  order ≡ₚ map_to_list reqs.

(** [requireRules name rego reqs] may return [res]. *)
Definition requireRules (name rego : string) (reqs : gmap string Z)
  (res : Outcome (option error)) : Prop :=
  ∃ order, rangeOf reqs order ∧ requireRulesRange name rego order = res.

End Helpers.

End client.

(** ** Induction over terms and expressions

    [Value] and [Expr] are mutually recursive through lists and pairs; the
    principle below gives the induction hypothesis for every member. *)

Module ast_ind.
Import ast.

Definition Forall_all {A : Type} (P : A -> Prop) (h : forall x, P x)
  : forall l : list A, Forall P l :=
  fix all l :=
    match l return Forall P l with
    | [] => List.Forall_nil P
    | x :: l' => @List.Forall_cons A P x l' (h x) (all l')
    end.

Definition both (P : Value -> Prop) (kv : Value * Value) : Prop :=
  P kv.1 /\ P kv.2.

Section Principle.

Variables (P : Value -> Prop) (Q : Expr -> Prop).

Hypothesis P_Null : P Null.
Hypothesis P_Boolean : forall b, P (Boolean b).
Hypothesis P_Number : forall n, P (Number n).
Hypothesis P_String : forall s, P (String s).
Hypothesis P_Var : forall v, P (Var v).
Hypothesis P_Ref : forall r, Forall P r -> P (Ref r).
Hypothesis P_Array : forall a, Forall P a -> P (Array a).
Hypothesis P_Object : forall o, Forall (both P) o -> P (Object o).
Hypothesis P_Set : forall s, Forall P s -> P (Set_ s).
Hypothesis P_ArrayComprehension :
  forall t b, P t -> Forall Q b -> P (ArrayComprehension t b).
Hypothesis P_ObjectComprehension :
  forall k x b, P k -> P x -> Forall Q b -> P (ObjectComprehension k x b).
Hypothesis P_SetComprehension :
  forall t b, P t -> Forall Q b -> P (SetComprehension t b).
Hypothesis P_Call : forall c, Forall P c -> P (Call c).
Hypothesis Q_single :
  forall n t w, P t -> Forall (both P) w -> Q (MkExpr n (inl t) w).
Hypothesis Q_terms :
  forall n ts w, Forall P ts -> Forall (both P) w -> Q (MkExpr n (inr ts) w).

Fixpoint Value_holds (v : Value) : P v :=
  match v with
  | Null => P_Null
  | Boolean b => P_Boolean b
  | Number n => P_Number n
  | String s => P_String s
  | Var x => P_Var x
  | Ref r => P_Ref r (Forall_all P Value_holds r)
  | Array a => P_Array a (Forall_all P Value_holds a)
  | Object o =>
      P_Object o
        (Forall_all (both P)
           (fun kv => conj (Value_holds kv.1) (Value_holds kv.2)) o)
  | Set_ s => P_Set s (Forall_all P Value_holds s)
  | ArrayComprehension t b =>
      P_ArrayComprehension t b (Value_holds t) (Forall_all Q Expr_holds b)
  | ObjectComprehension k x b =>
      P_ObjectComprehension k x b (Value_holds k) (Value_holds x)
        (Forall_all Q Expr_holds b)
  | SetComprehension t b =>
      P_SetComprehension t b (Value_holds t) (Forall_all Q Expr_holds b)
  | Call c => P_Call c (Forall_all P Value_holds c)
  end
with Expr_holds (e : Expr) : Q e :=
  match e with
  | MkExpr n (inl t) w =>
      Q_single n t w (Value_holds t)
        (Forall_all (both P)
           (fun kv => conj (Value_holds kv.1) (Value_holds kv.2)) w)
  | MkExpr n (inr ts) w =>
      Q_terms n ts w (Forall_all P Value_holds ts)
        (Forall_all (both P)
           (fun kv => conj (Value_holds kv.1) (Value_holds kv.2)) w)
  end.

End Principle.

Section RulePrinciple.

Variable P : Rule -> Prop.
Hypothesis P_last : forall d h b, P (MkRule d h b None).
Hypothesis P_else : forall d h b r, P r -> P (MkRule d h b (Some r)).

Fixpoint Rule_holds (r : Rule) : P r :=
  match r with
  | MkRule d h b None => P_last d h b
  | MkRule d h b (Some r') => P_else d h b r' (Rule_holds r')
  end.

End RulePrinciple.

End ast_ind.

(** ** The references of a module, in document order

    What [Walk] meets when no visitor cuts the walk short: a reference, then
    the references inside its own terms, left to right. *)

Module refs.
Import ast.

Fixpoint TermRefs (t : Value) : list (list Term) :=
  match t with
  | Null | Boolean _ | Number _ | String _ | Var _ => []
  | Ref r => r :: flat_map TermRefs r
  | Array a => flat_map TermRefs a
  | Object o => flat_map (fun kv => TermRefs kv.1 ++ TermRefs kv.2) o
  | Set_ s => flat_map TermRefs s
  | ArrayComprehension t b => TermRefs t ++ flat_map ExprRefs b
  | ObjectComprehension k x b =>
      (TermRefs k ++ TermRefs x) ++ flat_map ExprRefs b
  | SetComprehension t b => TermRefs t ++ flat_map ExprRefs b
  | Call c => flat_map TermRefs c
  end
with ExprRefs (e : Expr) : list (list Term) :=
  match e with
  | MkExpr _ ts w =>
      match ts with
      | inl t => TermRefs t
      | inr l => flat_map TermRefs l
      end ++ flat_map (fun tv => TermRefs tv.1 ++ TermRefs tv.2) w
  end.

Definition OptionRefs (o : option Term) : list (list Term) :=
  match o with
  | Some t => TermRefs t
  | None => []
  end.

Definition HeadRefs (h : Head) : list (list Term) :=
  flat_map TermRefs (Args h) ++ OptionRefs (Key h) ++ OptionRefs (HeadValue h).

Fixpoint RuleRefs (r : Rule) : list (list Term) :=
  match r with
  | MkRule _ h b els =>
      HeadRefs h ++ flat_map ExprRefs b
      ++ match els with
         | Some r' => RuleRefs r'
         | None => []
         end
  end.

(** Calling a visitor closure on a list of references in turn, whatever it
    answers. *)
Definition visitAll {St : Type} (f : list Term -> St -> bool * St)
  (rs : list (list Term)) (s : St) : St :=
  foldl (fun s r => (f r s).2) s rs.

(** A walk of one term, or of one expression, that meets the references
    listed for it, in that order. *)
Definition term_walk_as_listed {St : Type} (f : list Term -> St -> bool * St)
  (t : Value) : Prop :=
  forall s, WalkTerm f t s = visitAll f (TermRefs t) s.

Definition expr_walk_as_listed {St : Type} (f : list Term -> St -> bool * St)
  (e : Expr) : Prop :=
  forall s, WalkExpr f e s = visitAll f (ExprRefs e) s.

Definition ModuleRefs (m : Module) : list (list Term) :=
  Path (Pkg m)
  :: flat_map TermRefs (Path (Pkg m))
  ++ flat_map (fun i => TermRefs (ImportPath i)) (Imports m)
  ++ flat_map RuleRefs (Rules m).

End refs.

(** ** What the specification says, in its own words *)

Module spec.
Import ast client refs.

(** The violation of one reference whose leading segment is the reserved
    root [data]: no field at all, a field that is not a literal, or a literal
    field other than the string [inventory]. *)
Inductive Violation : list Term -> error -> Prop :=
| missing_field :
    Violation [Var "data"] (MissingField [Var "data"])
| literal_access (seg : Term) (rest : list Term) :
    IsGround seg = false ->
    Violation (Var "data" :: seg :: rest)
              (LiteralAccess (Var "data" :: seg :: rest))
| invalid_field (seg : Term) (rest : list Term) :
    IsGround seg = true ->
    seg <> String "inventory" ->
    Violation (Var "data" :: seg :: rest) (InvalidRootField seg ["inventory"]).

Definition conforms (r : list Term) : Prop := forall e, ~ Violation r e.

(** The entries the walker's closure adds for one reference. *)
Definition refErrors (r : list Term) : list error := (checkRef r []).2.

Definition flagged (r : list Term) : bool :=
  match refErrors r with
  | [] => false
  | _ :: _ => true
  end.

(** An element a head-key array may hold: a variable or an object. *)
Definition varOrObject (e : Term) : bool :=
  match e with
  | Var _ | Object _ => true
  | _ => false
  end.

Definition inferable (r : Rule) : Prop := (getRuleArity r).2 = None.

(** The declared-rule map: the arity of the last rule of that name. *)
Fixpoint declared (rules : list Rule) (name : string) : option Z :=
  match rules with
  | [] => None
  | r :: rest =>
      match declared rest name with
      | Some a => Some a
      | None =>
          if decide (Name (RuleHead r) = name) then Some (getRuleArity r).1
          else None
      end
  end.

(** The finding for one required (name, arity) pair. *)
Definition finding (arity_of : string -> option Z) (req : string * Z)
  : list error :=
  match arity_of req.1 with
  | None => [MissingRule req.1]
  | Some got =>
      if decide (got = req.2) then [] else [ArityMismatch req.1 got req.2]
  end.

(** The aggregate of a list of findings: success when there is none. *)
Definition aggregate (errs : list error) : option error :=
  match errs with
  | [] => None
  | _ :: _ => Some (Aggregate errs)
  end.

(** Space, tab, line feed, carriage return. *)
Definition isSpace (c : ascii) : bool :=
  match nat_of_ascii c with
  | 32 | 9 | 10 | 13 => true
  | _ => false
  end.

Fixpoint allWhitespace (s : string) : bool :=
  match s with
  | EmptyString => true
  | String.String c s' => isSpace c && allWhitespace s'
  end.

(** [n] separators in a row. *)
Fixpoint separators (n : nat) (sep : string) : string :=
  match n with
  | O => ""
  | S n' => sep +:+ separators n' sep
  end.

(** Two results of [requireRules] that differ at most in the order of the
    entries of the aggregate. *)
Definition sameFindings (a b : Outcome (option error)) : Prop :=
  a = b \/
  exists l1 l2,
    a = Returns (Some (Aggregate l1)) /\ b = Returns (Some (Aggregate l2))
    /\ l1 ≡ₚ l2.

(** The canonical package path for a desired path. *)
Definition canonicalPath (desiredPath : string) : list Term :=
  [Var "data"] ++ map String (strings.Split desiredPath ".").

End spec.

(** ** Sample modules, with a printer and a parser for them

    The printer follows the [String] methods of OPA's [ast] package; the
    parser reads back what the printer writes for the sample modules,
    returns no module and no error for a blank source, as [ast.ParseModule]
    does when the source holds no statement, and a parse error for anything
    else. *)

Module samples.
Import ast client spec.

Definition quoteMark : string := String.String (ascii_of_nat 34) EmptyString.

Definition isLetter (c : ascii) : bool :=
  let n := nat_of_ascii c in
  ((65 <=? n) && (n <=? 90)) || ((97 <=? n) && (n <=? 122)) || (n =? 95).

Definition isDigit (c : ascii) : bool :=
  let n := nat_of_ascii c in (48 <=? n) && (n <=? 57).

Fixpoint identifierTail (s : string) : bool :=
  match s with
  | EmptyString => true
  | String.String c s' => (isLetter c || isDigit c) && identifierTail s'
  end.

(** [varRegexp]: a letter or underscore, then letters, digits, underscores. *)
Definition isIdentifier (s : string) : bool :=
  match s with
  | EmptyString => false
  | String.String c s' => isLetter c && identifierTail s'
  end.

Definition keywords : list string :=
  ["package"; "import"; "as"; "default"; "else"; "with"; "not"; "null";
   "true"; "false"].

Definition isKeyword (s : string) : bool := bool_decide (s ∈ keywords).

(** [String()] on terms; in a reference a string segment that is an
    identifier is written after a dot, any other segment in brackets. *)
Fixpoint termString (t : Value) : string :=
  match t with
  | Null => "null"
  | Boolean b => if b then "true" else "false"
  | Number n => n
  | String s => quoteMark +:+ s +:+ quoteMark
  | Var v => v
  | Ref r =>
      match r with
      | [] => ""
      | head :: path =>
          termString head
          +:+ strings.Join
                (map (fun p =>
                        match p with
                        | String s =>
                            if isIdentifier s && negb (isKeyword s)
                            then "." +:+ s
                            else "[" +:+ quoteMark +:+ s +:+ quoteMark +:+ "]"
                        | _ => "[" +:+ termString p +:+ "]"
                        end) path) ""
      end
  | Array a => "[" +:+ strings.Join (map termString a) ", " +:+ "]"
  | Object o =>
      "{" +:+ strings.Join
                (map (fun kv => termString kv.1 +:+ ": " +:+ termString kv.2)
                   o) ", " +:+ "}"
  | Set_ s => "{" +:+ strings.Join (map termString s) ", " +:+ "}"
  | ArrayComprehension t b =>
      "[" +:+ termString t +:+ " | "
      +:+ strings.Join (map exprString b) "; " +:+ "]"
  | ObjectComprehension k v b =>
      "{" +:+ termString k +:+ ": " +:+ termString v +:+ " | "
      +:+ strings.Join (map exprString b) "; " +:+ "}"
  | SetComprehension t b =>
      "{" +:+ termString t +:+ " | "
      +:+ strings.Join (map exprString b) "; " +:+ "}"
  | Call c =>
      match c with
      | [] => ""
      | op :: args =>
          termString op +:+ "("
          +:+ strings.Join (map termString args) ", " +:+ ")"
      end
  end
with exprString (e : Expr) : string :=
  match e with
  | MkExpr negated ts w =>
      strings.Join
        ((if negated then ["not"] else [])
         ++ [match ts with
             | inl t => termString t
             | inr l =>
                 match l with
                 | [] => ""
                 | op :: args =>
                     termString op +:+ "("
                     +:+ strings.Join (map termString args) ", " +:+ ")"
                 end
             end]
         ++ map (fun tv =>
                   "with " +:+ termString tv.1 +:+ " as " +:+ termString tv.2)
              w) " "
  end.

Definition bodyString (b : list Expr) : string :=
  strings.Join (map exprString b) "; ".

Definition headString (h : Head) : string :=
  strings.Join
    ([match Args h, Key h with
      | _ :: _, _ =>
          Name h +:+ "(" +:+ strings.Join (map termString (Args h)) ", "
          +:+ ")"
      | [], Some k => Name h +:+ "[" +:+ termString k +:+ "]"
      | [], None => Name h
      end]
     ++ match HeadValue h with
        | Some v => ["="; termString v]
        | None => []
        end) " ".

Fixpoint elseString (r : Rule) : string :=
  match r with
  | MkRule _ h b els =>
      strings.Join
        (["else"]
         ++ match HeadValue h with
            | Some v => ["="; termString v]
            | None => []
            end
         ++ ["{"; bodyString b; "}"]
         ++ match els with
            | Some r' => [elseString r']
            | None => []
            end) " "
  end.

Definition ruleString (r : Rule) : string :=
  match r with
  | MkRule default h b els =>
      strings.Join
        ((if default then ["default"] else [])
         ++ [headString h]
         ++ (if default then [] else ["{"; bodyString b; "}"])
         ++ match els with
            | Some r' => [elseString r']
            | None => []
            end) " "
  end.

Definition importString (i : Import) : string :=
  "import " +:+ termString (ImportPath i)
  +:+ (if decide (Alias i = "") then "" else " as " +:+ Alias i).

(** The head [data] is left out and the first segment is written as a
    variable, so a first segment that is the empty string leaves nothing
    after the keyword. *)
Definition packageString (p : Package) : string :=
  match Path p with
  | _ :: String first :: rest => "package " +:+ termString (Ref (Var first :: rest))
  | _ => "package <illegal path>"
  end.

(** [module.String()]: the package, then the imports and the rules, each
    group after an empty line. *)
Definition sampleString (m : Module) : string :=
  strings.Join
    ([packageString (Pkg m)]
     ++ match Imports m with
        | [] => []
        | _ :: _ => "" :: map importString (Imports m)
        end
     ++ match Rules m with
        | [] => []
        | _ :: _ => "" :: map ruleString (Rules m)
        end) newline.

Definition ruleBody : list Expr :=
  [MkExpr false (inl (Ref [Var "data"; String "inventory"; Var "x"])) []].

Definition violationRule : Rule :=
  MkRule false (MkHead "violation" [] (Some (Var "x")) None) ruleBody None.

Definition moduleAt (path : list Term) : Module :=
  MkModule (MkPackage path) [] [violationRule].

Definition fooModule : Module := moduleAt [Var "data"; String "foo"].

Definition barBazModule : Module :=
  moduleAt [Var "data"; String "bar"; String "baz"].

(** [data[data.foo]]: a flagged reference with a flagged reference among its
    own terms. A rule without key has the value [true]. *)
Definition inner : list Term := [Var "data"; String "foo"].
Definition outer : list Term := [Var "data"; Ref inner].

Definition nestedModule : Module :=
  MkModule (MkPackage [Var "data"; String "foo"])
    [] [MkRule false (MkHead "deny" [] None (Some (Boolean true)))
          [MkExpr false (inl (Ref outer)) []] None].

Definition importModule : Module :=
  MkModule (MkPackage [Var "data"; String "foo"])
    [MkImport (Ref [Var "data"; String "lib"]) ""] [violationRule].

(** The modules the sample parser knows. *)
Definition sampleModules : list Module :=
  [fooModule; barBazModule; nestedModule; importModule].

Fixpoint readBack (known : list Module) (input : string) : option Module :=
  match known with
  | [] => None
  | m :: rest =>
      if decide (sampleString m = input) then Some m else readBack rest input
  end.

Definition sampleParse (filename input : string)
  : option Module * option string :=
  if allWhitespace input then (None, None)
  else
    match readBack sampleModules input with
    | Some m => (Some m, None)
    | None => (None, Some "rego_parse_error")
    end.

Definition fooSource : string := sampleString fooModule.
Definition barBazSource : string := sampleString barBazModule.
Definition nestedSource : string := sampleString nestedModule.
Definition importSource : string := sampleString importModule.

(** Two references that do not contain one another: [data.foo] and
    [data[x]]. *)
Definition twoModule : Module :=
  MkModule (MkPackage [])
    [] [MkRule false (MkHead "violation" [] (Some (Var "x")) None)
          [MkExpr false (inl (Ref inner)) [];
           MkExpr false (inl (Ref [Var "data"; Var "x"])) []] None].

(** Two requirements that the sample module does not meet. *)
Definition twoRequired : list (string * Z) :=
  [("deny", 1%Z); ("violation", 2%Z)].

Definition twoRequiredMap : gmap string Z := list_to_map twoRequired.

End samples.

(** ** The result types of [constraint/pkg/types/validation.go] *)

Module types.
Import client.

Section Types.

(** A [*Result] is only stored and handed to [spew.Sdump] here; its fields
    (message, metadata, constraint, review, resource) are not looked at. *)
Variable Result : Type.
Variable Sdump : Result -> string.

(** [Trace] and [Input] are [*string]: nil when tracing is disabled. *)
Record Response := MkResponse {
  Trace : option string;
  Input : option string;
  Target : string;
  Results : list Result
}.

(** The loop of [TraceDump] over the results: [i] counts from the index given,
    [b] is the builder. *)
Definition dumpResult (ib : nat * string) (r : Result) : nat * string :=
  let '(i, b) := ib in
  (S i,
   b +:+ "Result(" +:+ pretty i +:+ "):" +:+ newline +:+ Sdump r
     +:+ newline +:+ newline).

(** [func (r *Response) TraceDump() string], on a receiver that is not nil. *)
Definition TraceDump (r : Response) : string :=
  let b := "" in
  let b := b +:+ "Target: " +:+ Target r +:+ newline in
  let b :=
    match Input r with
    | None => b +:+ "Input: TRACING DISABLED" +:+ newline +:+ newline
    | Some input => b +:+ "Input:" +:+ newline +:+ input +:+ newline +:+ newline
    end in
  let b :=
    match Trace r with
    | None => b +:+ "Trace: TRACING DISABLED" +:+ newline +:+ newline
    | Some trace => b +:+ "Trace:" +:+ newline +:+ trace +:+ newline +:+ newline
    end in
  (foldl dumpResult (0, b) (Results r)).2.

(** [type Responses map[string]*Response]: a target may be mapped to a nil
    pointer, which is [None] here. As for [requireRules], the methods range
    over the map in an order of the runtime's choosing, given as [order]. *)
Definition ResponsesRange (rs : gmap string (option Response))
  (order : list (string * option Response)) : Prop :=
  order ≡ₚ map_to_list rs.

(** The receiver of the methods of [Responses] is a pointer to the map: nil,
    or a map ranged over in [order]. *)
Definition ReceiverRange (r : option (gmap string (option Response)))
  (order : list (string * option Response)) : Prop :=
  match r with
  | None => order = []
  | Some rs => ResponsesRange rs order
  end.

(** [func (r *Responses) Results() []*Result]: [*r] on a nil receiver
    panics, and so does [resp.Results] on a nil [resp]. *)
Definition Responses_Results (r : option (gmap string (option Response)))
  (order : list (string * option Response)) : Outcome (list Result) :=
  match r with
  | None => Panics
  | Some _ =>
      foldl (fun res kv =>
               match res with
               | Panics => Panics
               | Returns res =>
                   match kv.2 with
                   | None => Panics
                   | Some resp => Returns (res ++ Results resp)
                   end
               end) (Returns []) order
  end.

(** [func (r *Responses) TraceDump() string]: [*r] on a nil receiver
    panics, and so does [resp.TraceDump()] on a nil [resp]; [fmt.Fprintln]
    writes its argument and a newline. *)
Definition Responses_TraceDump (r : option (gmap string (option Response)))
  (order : list (string * option Response)) : Outcome string :=
  match r with
  | None => Panics
  | Some _ =>
      foldl (fun b kv =>
               match b with
               | Panics => Panics
               | Returns b =>
                   match kv.2 with
                   | None => Panics
                   | Some resp =>
                       Returns ((b +:+ TraceDump resp +:+ newline)
                                +:+ "" +:+ newline)
                   end
               end) (Returns "") order
  end.

(** The section of the dump for the result of index [i]. *)
Definition resultSection (i : nat) (r : Result) : string :=
  "Result(" +:+ pretty i +:+ "):" +:+ newline +:+ Sdump r
  +:+ newline +:+ newline.

(** The sections of a list of results, numbered from [i] on. *)
Fixpoint resultSections (i : nat) (rs : list Result) : string :=
  match rs with
  | [] => ""
  | r :: rest => resultSection i r +:+ resultSections (S i) rest
  end.

Definition moreResults (r : Response) (more : list Result) : Response :=
  MkResponse (Trace r) (Input r) (Target r) (Results r ++ more).

(** The dumps of the responses of a list, each followed by two newlines. *)
Fixpoint responseDumps (order : list (string * option Response)) : string :=
  match order with
  | [] => ""
  | kv :: rest =>
      match kv.2 with
      | None => responseDumps rest
      | Some resp =>
          TraceDump resp +:+ newline +:+ newline +:+ responseDumps rest
      end
  end.

End Types.

Arguments MkResponse {Result}.
Arguments Trace {Result}.
Arguments Input {Result}.
Arguments Target {Result}.
Arguments Results {Result}.
Arguments moreResults {Result}.
Arguments Responses_Results {Result}.
Arguments ResponsesRange {Result}.
Arguments ReceiverRange {Result}.

End types.

(** ** Further notions used to state what the helpers do *)

Module notions.
Import ast client refs spec.

(** The name of the rule a finding of [requireRules] is about. *)
Definition ruleOf (e : error) : string :=
  match e with
  | MissingRule name => name
  | ArityMismatch name _ _ => name
  | _ => ""
  end.

(** An entry that [checkDataAccess] can add. *)
Definition isDataAccessViolation (e : error) : bool :=
  match e with
  | MissingField _ | LiteralAccess _ | InvalidRootField _ _ => true
  | _ => false
  end.

(** The text of a string segment of a package path. *)
Definition segment (t : Term) : string :=
  match t with
  | String s => s
  | _ => ""
  end.

(** The dotted path a package reference stands for: its segments after the
    root, joined by dots. *)
Definition dottedPath (ref : list Term) : string :=
  strings.Join (map segment (tail ref)) ".".

(** The number of occurrences of a character in a string. *)
Fixpoint occurrences (c : ascii) (s : string) : nat :=
  match s with
  | EmptyString => 0
  | String.String a s' =>
      (if Ascii.eqb a c then 1 else 0) + occurrences c s'
  end.

(** A module with only rules: no package path, no imports. *)
Definition rulesOnly (rules : list Rule) : Module :=
  MkModule (MkPackage []) [] rules.

End notions.

(** ** Further samples *)

Module samples_more.
Import ast client types samples.

(** The sample module declared twice over: [violation] first with an array
    of two, then with one variable. *)
Definition twiceModule : Module :=
  MkModule (MkPackage [Var "data"; String "foo"]) []
    [MkRule false
       (MkHead "violation" [] (Some (Array [Var "x"; Var "y"])) None) [] None;
     violationRule].

Definition twiceParse (filename input : string)
  : option Module * option string := (Some twiceModule, None).

Definition sampleResponse : Response string :=
  MkResponse None (Some "review") "admission" ["r0"; "r1"].

Definition sampleResponses : gmap string (option (Response string)) :=
  {["admission" := Some sampleResponse]}.

End samples_more.

(** ** What the sample parser answers *)

Module sample_facts.
Import ast client samples.

Lemma sampleParse_foo (kind : string) :
  sampleParse kind fooSource = (Some fooModule, None).
Proof. vm_compute. reflexivity. Defined.

Lemma sampleParse_barBaz (kind : string) :
  sampleParse kind barBazSource = (Some barBazModule, None).
Proof. vm_compute. reflexivity. Defined.

Lemma sampleParse_nested (kind : string) :
  sampleParse kind nestedSource = (Some nestedModule, None).
Proof. vm_compute. reflexivity. Defined.

Lemma sampleParse_import (kind : string) :
  sampleParse kind importSource = (Some importModule, None).
Proof. vm_compute. reflexivity. Defined.

Lemma sampleParse_blank (kind : string) :
  sampleParse kind " " = (None, None).
Proof. reflexivity. Defined.

Lemma fooSource_not_empty : fooSource <> "".
Proof. vm_compute. discriminate. Defined.

Lemma barBazSource_not_empty : barBazSource <> "".
Proof. vm_compute. discriminate. Defined.

Lemma barBaz_printed :
  sampleString (setPath fooModule (packageRef "bar.baz")) = barBazSource.
Proof. vm_compute. reflexivity. Defined.

End sample_facts.

(** ** The walk when the visitor never cuts it short *)

Module walk_facts.
Import ast ast_ind client refs spec.

Section Fusion.

Context {St : Type} (f : list Term -> St -> bool * St).
Hypothesis goes_on : forall r s, (f r s).1 = false.

Lemma visitAll_app (a b : list (list Term)) (s : St) :
  visitAll f (a ++ b) s = visitAll f b (visitAll f a s).
Proof. unfold visitAll. apply foldl_app. Qed.

Lemma foldl_visitAll {A : Type} (W : A -> St -> St)
  (R : A -> list (list Term)) (l : list A) :
  Forall (fun x => forall s, W x s = visitAll f (R x) s) l ->
  forall s, foldl (fun s x => W x s) s l = visitAll f (flat_map R l) s.
Proof.
  induction 1 as [|x l Hx _ IH]; intros s; simpl; [reflexivity|].
  rewrite visitAll_app, <- Hx. apply IH.
Qed.

Lemma foldl_pairs (o : list (Value * Value)) :
  Forall (both (term_walk_as_listed f)) o ->
  forall s,
    foldl (fun s kv => WalkTerm f kv.2 (WalkTerm f kv.1 s)) s o
    = visitAll f (flat_map (fun kv => TermRefs kv.1 ++ TermRefs kv.2) o) s.
Proof.
  intros H.
  apply (foldl_visitAll (fun kv s => WalkTerm f kv.2 (WalkTerm f kv.1 s))).
  eapply Forall_impl; [exact H|].
  intros kv [H1 H2] s. rewrite visitAll_app, <- H1. apply H2.
Qed.

Lemma walk_terms (l : list Value) :
  Forall (term_walk_as_listed f) l ->
  forall s, foldl (fun s x => WalkTerm f x s) s l
            = visitAll f (flat_map TermRefs l) s.
Proof. apply (foldl_visitAll (WalkTerm f)). Qed.

Lemma walk_body (b : list Expr) :
  Forall (expr_walk_as_listed f) b ->
  forall s, foldl (fun s e => WalkExpr f e s) s b
            = visitAll f (flat_map ExprRefs b) s.
Proof. apply (foldl_visitAll (WalkExpr f)). Qed.

Lemma walk_scalar (t : Value) :
  TermRefs t = [] -> (forall s, WalkTerm f t s = s) -> (term_walk_as_listed f) t.
Proof. intros Ht Hw s. rewrite Ht, Hw. reflexivity. Qed.

Lemma walk_Ref (r : list Value) :
  Forall (term_walk_as_listed f) r -> (term_walk_as_listed f) (Ref r).
Proof.
  intros Hr s. unfold visitAll. simpl.
  pose proof (goes_on r s) as Hgo.
  destruct (f r s) as [stop s1]. simpl in Hgo. subst stop. simpl.
  apply walk_terms, Hr.
Qed.

Lemma walk_Array (a : list Value) :
  Forall (term_walk_as_listed f) a -> (term_walk_as_listed f) (Array a).
Proof. intros Ha s. simpl. apply walk_terms, Ha. Qed.

Lemma walk_Object (o : list (Value * Value)) :
  Forall (both (term_walk_as_listed f)) o -> (term_walk_as_listed f) (Object o).
Proof. intros Ho s. simpl. apply foldl_pairs, Ho. Qed.

Lemma walk_Set (x : list Value) :
  Forall (term_walk_as_listed f) x -> (term_walk_as_listed f) (Set_ x).
Proof. intros Hx s. simpl. apply walk_terms, Hx. Qed.

Lemma walk_Call (c : list Value) :
  Forall (term_walk_as_listed f) c -> (term_walk_as_listed f) (Call c).
Proof. intros Hc s. simpl. apply walk_terms, Hc. Qed.

Lemma walk_ArrayComprehension (t : Value) (b : list Expr) :
  (term_walk_as_listed f) t -> Forall (expr_walk_as_listed f) b ->
  (term_walk_as_listed f) (ArrayComprehension t b).
Proof.
  intros Ht Hb s. simpl. rewrite visitAll_app, <- Ht. apply walk_body, Hb.
Qed.

Lemma walk_SetComprehension (t : Value) (b : list Expr) :
  (term_walk_as_listed f) t -> Forall (expr_walk_as_listed f) b ->
  (term_walk_as_listed f) (SetComprehension t b).
Proof.
  intros Ht Hb s. simpl. rewrite visitAll_app, <- Ht. apply walk_body, Hb.
Qed.

Lemma walk_ObjectComprehension (k x : Value) (b : list Expr) :
  (term_walk_as_listed f) k -> (term_walk_as_listed f) x -> Forall (expr_walk_as_listed f) b ->
  (term_walk_as_listed f) (ObjectComprehension k x b).
Proof.
  intros Hk Hx Hb s. simpl.
  rewrite !visitAll_app, <- Hk, <- Hx. apply walk_body, Hb.
Qed.

Lemma walk_single (n : bool) (t : Value) (w : list (Value * Value)) :
  (term_walk_as_listed f) t -> Forall (both (term_walk_as_listed f)) w ->
  (expr_walk_as_listed f) (MkExpr n (inl t) w).
Proof.
  intros Ht Hw s. simpl. rewrite visitAll_app, <- Ht. apply foldl_pairs, Hw.
Qed.

Lemma walk_several (n : bool) (ts : list Value) (w : list (Value * Value)) :
  Forall (term_walk_as_listed f) ts -> Forall (both (term_walk_as_listed f)) w ->
  (expr_walk_as_listed f) (MkExpr n (inr ts) w).
Proof.
  intros Hts Hw s. simpl.
  rewrite visitAll_app, <- walk_terms by exact Hts. apply foldl_pairs, Hw.
Qed.

Create HintDb walk.

#[local] Hint Resolve walk_Ref walk_Array walk_Object walk_Set walk_Call
  walk_ArrayComprehension walk_SetComprehension walk_ObjectComprehension
  walk_single walk_several : walk.

Lemma WalkTerm_as_listed (t : Value) : (term_walk_as_listed f) t.
Proof.
  revert t.
  apply (Value_holds (term_walk_as_listed f) (expr_walk_as_listed f));
    auto with walk; intros; apply walk_scalar; reflexivity.
Qed.

Lemma WalkExpr_as_listed (e : Expr) : (expr_walk_as_listed f) e.
Proof.
  revert e.
  apply (Expr_holds (term_walk_as_listed f) (expr_walk_as_listed f));
    auto with walk; intros; apply walk_scalar; reflexivity.
Qed.

Lemma WalkHead_as_listed (h : Head) (s : St) :
  WalkHead f h s = visitAll f (HeadRefs h) s.
Proof.
  unfold WalkHead, HeadRefs, OptionRefs. rewrite !visitAll_app.
  rewrite <- walk_terms
    by (apply Forall_forall; intros; apply WalkTerm_as_listed).
  destruct (Key h), (HeadValue h); simpl;
    rewrite <- ?WalkTerm_as_listed; reflexivity.
Qed.

Lemma WalkRule_as_listed (r : Rule) :
  forall s, WalkRule f r s = visitAll f (RuleRefs r) s.
Proof.
  revert r.
  apply (Rule_holds
           (fun r => forall s, WalkRule f r s = visitAll f (RuleRefs r) s)).
  - intros d h b s. cbn [WalkRule RuleRefs]. unfold WalkBody.
    rewrite app_nil_r, visitAll_app, <- WalkHead_as_listed.
    apply walk_body, Forall_forall. intros; apply WalkExpr_as_listed.
  - intros d h b r IH s. cbn [WalkRule RuleRefs]. unfold WalkBody.
    rewrite !visitAll_app, <- WalkHead_as_listed.
    rewrite <- walk_body
      by (apply Forall_forall; intros; apply WalkExpr_as_listed).
    apply IH.
Qed.

Lemma WalkRefs_as_listed (m : Module) (s : St) :
  WalkRefs f m s = visitAll f (ModuleRefs m) s.
Proof.
  unfold WalkRefs, WalkPackage, ModuleRefs.
  rewrite (WalkTerm_as_listed (Ref (Path (Pkg m))) s). simpl TermRefs.
  change (Path (Pkg m) :: flat_map TermRefs (Path (Pkg m))
          ++ flat_map (fun i => TermRefs (ImportPath i)) (Imports m)
          ++ flat_map RuleRefs (Rules m))
    with ((Path (Pkg m) :: flat_map TermRefs (Path (Pkg m)))
          ++ flat_map (fun i => TermRefs (ImportPath i)) (Imports m)
          ++ flat_map RuleRefs (Rules m)).
  rewrite !visitAll_app.
  rewrite <- (foldl_visitAll (fun i s => WalkImport f i s)
                (fun i => TermRefs (ImportPath i)))
    by (apply Forall_forall; intros; apply WalkTerm_as_listed).
  apply (foldl_visitAll (WalkRule f)).
  apply Forall_forall; intros; apply WalkRule_as_listed.
Qed.

End Fusion.

End walk_facts.

(** ** [checkDataAccess] *)

Module data_access.
Import ast client refs spec samples walk_facts.

Lemma checkRef_goes_on (r : list Term) (errs : list error) :
  (checkRef r errs).1 = false.
Proof.
  unfold checkRef.
  destruct (HasPrefixRoot r); [|reflexivity].
  destruct r as [|r0 [|r1 tl]]; try reflexivity.
  destruct (negb (IsGround r1)); [reflexivity|].
  destruct r1; try reflexivity.
  destruct (negb _); reflexivity.
Qed.

Lemma checkRef_appends (r : list Term) (errs : list error) :
  (checkRef r errs).2 = errs ++ refErrors r.
Proof.
  unfold refErrors, checkRef.
  destruct (HasPrefixRoot r); [|simpl; by rewrite app_nil_r].
  destruct r as [|r0 [|r1 tl]]; try reflexivity.
  destruct (negb (IsGround r1)); [reflexivity|].
  destruct r1; try reflexivity.
  destruct (negb _); simpl; by rewrite ?app_nil_r.
Qed.

Lemma visitAll_checkRef (rs : list (list Term)) (errs : list error) :
  visitAll checkRef rs errs = errs ++ flat_map refErrors rs.
Proof.
  revert errs. induction rs as [|r rs IH]; intros errs; simpl.
  - by rewrite app_nil_r.
  - unfold visitAll in *. simpl. rewrite IH, checkRef_appends.
    by rewrite app_assoc.
Qed.

Lemma validFields_listed (v : Value) :
  makeInvalidRootFieldErr v validDataFields = InvalidRootField v ["inventory"].
Proof.
  unfold makeInvalidRootFieldErr, validDataFields.
  by rewrite map_to_list_singleton.
Qed.

Lemma allowed_field (s : string) :
  default false (validDataFields !! s) = bool_decide (s = "inventory").
Proof.
  unfold validDataFields. rewrite lookup_singleton.
  case_decide; case_bool_decide; simpl; congruence.
Qed.

Lemma HasPrefixRoot_data (r : list Term) :
  HasPrefixRoot r = true <-> exists tl, r = Var "data" :: tl.
Proof.
  split.
  - destruct r as [|[] tl]; simpl; try discriminate.
    case_decide; [subst; eauto | discriminate].
  - intros [tl ->]. reflexivity.
Qed.

Lemma inventory_or_not (seg : Value) :
  seg = String "inventory" \/ seg <> String "inventory".
Proof.
  destruct seg as [| | |s| | | | | | | | |]; try (right; discriminate).
  destruct (decide (s = "inventory")) as [->|Hne]; [by left|].
  right. congruence.
Qed.

Lemma Violation_refErrors (r : list Term) (e : error) :
  Violation r e -> refErrors r = [e].
Proof.
  destruct 1 as [|seg rest Hg|seg rest Hg Hne]; unfold refErrors, checkRef; simpl.
  - reflexivity.
  - by rewrite Hg.
  - rewrite Hg. simpl. rewrite validFields_listed.
    destruct seg; try reflexivity.
    rewrite allowed_field. case_bool_decide; [congruence | reflexivity].
Qed.

Lemma refErrors_cases (r : list Term) :
  (refErrors r = [] /\ conforms r)
  \/ (exists e, refErrors r = [e] /\ Violation r e).
Proof.
  assert (Hno : refErrors r = [] -> conforms r).
  { intros H e He. apply Violation_refErrors in He. congruence. }
  assert (Hyes : forall e, Violation r e ->
            exists e, refErrors r = [e] /\ Violation r e).
  { intros e He. exists e. split; [by apply Violation_refErrors | done]. }
  destruct (HasPrefixRoot r) eqn:Hp.
  - apply HasPrefixRoot_data in Hp as [tl ->].
    destruct tl as [|seg rest].
    + right. eapply Hyes. constructor.
    + destruct (IsGround seg) eqn:Hg.
      * destruct (inventory_or_not seg) as [->|Hne].
        -- left. split; [reflexivity | by apply Hno].
        -- right. eapply Hyes. by apply invalid_field.
      * right. eapply Hyes. by apply literal_access.
  - left. assert (refErrors r = []) as H.
    { unfold refErrors, checkRef. by rewrite Hp. }
    split; [done | by apply Hno].
Qed.

Lemma flagged_Violation (r : list Term) :
  flagged r = true <-> exists e, Violation r e.
Proof.
  unfold flagged.
  destruct (refErrors_cases r) as [[H Hc]|(e & H & He)]; rewrite H.
  - split; [discriminate|]. intros [e He]. by destruct (Hc e).
  - split; [eauto | reflexivity].
Qed.

Lemma refErrors_length (r : list Term) :
  length (refErrors r) = if flagged r then 1 else 0.
Proof.
  unfold flagged.
  destruct (refErrors_cases r) as [[H _]|(e & H & _)]; by rewrite H.
Qed.

Lemma entries_counted (rs : list (list Term)) :
  length (flat_map refErrors rs) = length (List.filter flagged rs).
Proof.
  induction rs as [|r rs IH]; [reflexivity|].
  simpl. rewrite length_app, refErrors_length, IH.
  by destruct (flagged r).
Qed.

Lemma no_entries_iff (rs : list (list Term)) :
  flat_map refErrors rs = [] <-> Forall conforms rs.
Proof.
  induction rs as [|r rs IH]; simpl.
  - split; [constructor | reflexivity].
  - rewrite Forall_cons, <- IH.
    destruct (refErrors_cases r) as [[H Hc]|(e & H & He)]; rewrite H; simpl.
    + tauto.
    + split; [discriminate|]. intros [Hc _]. by destruct (Hc e).
Qed.

Lemma checkDataAccess_flat_map (m : Module) :
  checkDataAccess m = flat_map refErrors (ModuleRefs m).
Proof.
  unfold checkDataAccess.
  rewrite (WalkRefs_as_listed checkRef checkRef_goes_on), visitAll_checkRef.
  rewrite app_nil_l.
  destruct (flat_map refErrors (ModuleRefs m)) as [|e errs]; [reflexivity|].
  case_decide as H; [reflexivity|]. simpl in H. lia.
Qed.

(** C1. [checkDataAccess] calls its closure on every reference of the module,
    once each and in document order, and returns the entries the closure
    adds, none lost: a reference rooted at [data] that has no field yields
    the missing-field entry, one whose second segment is not ground the
    literal-access entry, one whose second segment is ground and is not the
    string [inventory] the invalid-field entry, and every other reference
    yields nothing. The list has as many entries as there are violating
    references, and it is nil exactly when no reference violates. *)
Theorem checkDataAccess_lists_every_violation (m : Module) :
  checkDataAccess m = flat_map refErrors (ModuleRefs m)
  /\ (forall r,
        (refErrors r = [] /\ conforms r)
        \/ (exists e, refErrors r = [e] /\ Violation r e))
  /\ length (checkDataAccess m) = length (List.filter flagged (ModuleRefs m))
  /\ (forall r, flagged r = true <-> exists e, Violation r e)
  /\ (checkDataAccess m = [] <-> Forall conforms (ModuleRefs m)).
Proof.
  rewrite checkDataAccess_flat_map.
  split; [reflexivity|].
  split; [apply refErrors_cases|].
  split; [apply entries_counted|].
  split; [apply flagged_Violation | apply no_entries_iff].
Qed.

(** Two references that do not contain one another, both violating: two
    entries, in the order of the text. *)
Lemma two_violations_two_entries :
  checkDataAccess twoModule
  = [InvalidRootField (String "foo") ["inventory"];
     LiteralAccess [Var "data"; Var "x"]]
  /\ length (checkDataAccess twoModule) = 2.
Proof.
  destruct (checkDataAccess_lists_every_violation twoModule) as (-> & _).
  split; reflexivity.
Defined.

(** C5, as the code has it. The closure answers [false] on every reference,
    flagged or not, so the walk goes on into the reference's own terms: the
    entry of the reference itself (if any) is followed by one entry for each
    violating reference among its terms, at any depth. *)
Theorem flagged_reference_is_walked_into (r : list Term) (errs : list error) :
  (checkRef r errs).1 = false
  /\ WalkTerm checkRef (Ref r) errs
     = errs ++ refErrors r ++ flat_map refErrors (flat_map TermRefs r).
Proof.
  split; [apply checkRef_goes_on|].
  rewrite (WalkTerm_as_listed checkRef checkRef_goes_on (Ref r) errs).
  rewrite visitAll_checkRef. reflexivity.
Qed.

(** C5 as stated fails: in [data[data.foo]] the outer reference is flagged
    (its field is a reference, not the string [inventory]) and the inner
    [data.foo] still gets an entry of its own. *)
Lemma nested_violation_still_reported :
  ~ (forall r e, Violation r e -> WalkTerm checkRef (Ref r) [] = [e]).
Proof.
  intros H.
  specialize (H outer (InvalidRootField (Ref inner) ["inventory"])).
  assert (Violation outer (InvalidRootField (Ref inner) ["inventory"])) as Hv
    by (apply invalid_field; [reflexivity | discriminate]).
  apply H in Hv. vm_compute in Hv. discriminate Hv.
Qed.

Lemma nested_violation_entries :
  checkDataAccess (setPath nestedModule [])
  = [InvalidRootField (Ref inner) ["inventory"];
     InvalidRootField (String "foo") ["inventory"]].
Proof. reflexivity. Qed.

End data_access.

(** ** [getRuleArity] and [requireRules] *)

Module rules.
Import ast client spec samples sample_facts.

Lemma element_flag (v : list Term) (errs : bool) :
  foldl (fun errs e =>
           match e with
           | Var _ => errs
           | Object _ => errs
           | _ => true
           end) errs v
  = errs || negb (forallb varOrObject v).
Proof.
  revert errs. induction v as [|e v IH]; intros errs; simpl.
  - by rewrite orb_false_r.
  - rewrite IH. destruct e, errs; simpl; try reflexivity;
      by rewrite ?orb_true_r.
Qed.

Lemma getRuleArity_Array (r : Rule) (v : list Term) :
  Key (RuleHead r) = Some (Array v) ->
  getRuleArity r
  = if forallb varOrObject v then (Z.of_nat (length v), None)
    else (0%Z, Some (InvalidSignatureElems v)).
Proof.
  intros H. unfold getRuleArity. rewrite H, element_flag. simpl.
  by destruct (forallb varOrObject v).
Qed.

Lemma getRuleArity_error (r : Rule) (e : error) :
  (getRuleArity r).2 = Some e -> isInvalidSignature e = true.
Proof.
  unfold getRuleArity.
  destruct (Key (RuleHead r)) as [t|]; [|discriminate].
  destruct t; simpl; try (intros [= <-]; reflexivity); try discriminate.
  destruct (foldl _ _ _); simpl; [intros [= <-]; reflexivity | discriminate].
Qed.

(** C2. [getRuleArity] by the shape of the head key: no key, arity 0; one
    variable, arity 1; an array whose elements are all variables or objects,
    the length of the array; an array with an element of any other shape, or
    a key of any other shape, an invalid-signature error. *)
Theorem getRuleArity_by_head_shape (r : Rule) :
  (Key (RuleHead r) = None -> getRuleArity r = (0%Z, None))
  /\ (forall x, Key (RuleHead r) = Some (Var x) ->
        getRuleArity r = (1%Z, None))
  /\ (forall v, Key (RuleHead r) = Some (Array v) ->
        (Forall (fun e => varOrObject e = true) v ->
           getRuleArity r = (Z.of_nat (length v), None))
        /\ (Exists (fun e => varOrObject e = false) v ->
              exists e, getRuleArity r = (0%Z, Some e)
                        /\ isInvalidSignature e = true))
  /\ (forall t, Key (RuleHead r) = Some t ->
        (forall x, t <> Var x) -> (forall v, t <> Array v) ->
        exists e, getRuleArity r = (0%Z, Some e)
                  /\ isInvalidSignature e = true).
Proof.
  split; [|split; [|split; [intros v Hk; split|]]].
  - intros H. unfold getRuleArity. by rewrite H.
  - intros x H. unfold getRuleArity. by rewrite H.
  - intros Hall. rewrite (getRuleArity_Array r v) by done.
    assert (forallb varOrObject v = true) as ->; [|reflexivity].
    apply forallb_forall. intros x Hx.
    rewrite Forall_forall in Hall. by apply Hall, list_elem_of_In.
  - intros Hex. rewrite (getRuleArity_Array r v) by done.
    destruct (forallb varOrObject v) eqn:Hf.
    + apply Exists_exists in Hex as (e & Hin & He).
      rewrite forallb_forall in Hf.
      apply list_elem_of_In, Hf in Hin. congruence.
    + eauto.
  - intros t Hk Hvar Harr. unfold getRuleArity. rewrite Hk.
    destruct t; eauto; [by destruct (Hvar v) | by destruct (Harr a)].
Qed.

(** A head-key array with a bare string literal has no arity; an array of
    variables and one object literal has its length as arity. *)
Lemma getRuleArity_samples :
  (exists e,
     getRuleArity
       (MkRule false
          (MkHead "violation" [] (Some (Array [Var "x"; String "lit"])) None)
          [] None) = (0%Z, Some e)
     /\ isInvalidSignature e = true)
  /\ getRuleArity
       (MkRule false
          (MkHead "violation" []
             (Some (Array [Var "x"; Object [(String "msg", Var "msg")];
                           Var "y"])) None)
          [] None) = (3%Z, None).
Proof.
  split.
  - destruct (getRuleArity_by_head_shape
                (MkRule false
                   (MkHead "violation" []
                      (Some (Array [Var "x"; String "lit"])) None) [] None))
      as (_ & _ & H & _).
    apply (H _ eq_refl). apply Exists_cons_tl, Exists_cons_hd. reflexivity.
  - destruct (getRuleArity_by_head_shape
                (MkRule false
                   (MkHead "violation" []
                      (Some (Array [Var "x";
                                    Object [(String "msg", Var "msg")];
                                    Var "y"])) None) [] None))
      as (_ & _ & H & _).
    apply (H _ eq_refl). repeat constructor.
Defined.

Lemma inferable_dec (r : Rule) : {inferable r} + {~ inferable r}.
Proof.
  unfold inferable. destruct (getRuleArity r).2; [right | left]; done.
Defined.

Lemma first_not_inferable (rs : list Rule) :
  ~ Forall inferable rs ->
  exists pre rule post e,
    rs = pre ++ rule :: post /\ Forall inferable pre
    /\ (getRuleArity rule).2 = Some e.
Proof.
  induction rs as [|r rs IH]; intros Hn.
  - destruct Hn. constructor.
  - destruct (inferable_dec r) as [Hr|Hr].
    + destruct IH as (pre & rule & post & e & -> & Hpre & He).
      { intros Hrs. apply Hn. by constructor. }
      exists (r :: pre), rule, post, e. repeat split; [|done].
      by constructor.
    + unfold inferable in Hr.
      destruct (getRuleArity r).2 as [e|] eqn:He; [|done].
      exists [], r, rs, e. repeat split; [constructor | done].
Qed.

Lemma collectArities_all (rs : list Rule) (acc : gmap string Z) :
  Forall inferable rs ->
  exists arities,
    collectArities rs acc = inl arities
    /\ forall name,
         arities !! name
         = match declared rs name with
           | Some a => Some a
           | None => acc !! name
           end.
Proof.
  revert acc. induction rs as [|r rs IH]; intros acc Hall.
  - exists acc. split; reflexivity.
  - apply Forall_cons in Hall as [Hr Hrs]. unfold inferable in Hr.
    simpl. destruct (getRuleArity r) as [a oe] eqn:Hg. simpl in Hr. subst oe.
    destruct (IH (<[Name (RuleHead r) := a]> acc) Hrs) as (ar & -> & Hlook).
    exists ar. split; [reflexivity|]. intros name. rewrite Hlook.
    destruct (declared rs name); [reflexivity|].
    simpl. case_decide as Hn.
    + subst name. by rewrite lookup_insert_eq.
    + by rewrite lookup_insert_ne.
Qed.

Lemma collectArities_stops (pre post : list Rule) (rule : Rule) (e : error)
  (acc : gmap string Z) :
  Forall inferable pre -> (getRuleArity rule).2 = Some e ->
  collectArities (pre ++ rule :: post) acc = inr e.
Proof.
  revert acc. induction pre as [|r pre IH]; intros acc Hpre He; simpl.
  - destruct (getRuleArity rule) as [a oe]. simpl in He. by subst oe.
  - apply Forall_cons in Hpre as [Hr Hpre]. unfold inferable in Hr.
    destruct (getRuleArity r) as [a oe]. simpl in Hr. subst oe.
    by apply IH.
Qed.

Lemma checkRequired_finding (arities : gmap string Z) (errs : list error)
  (req : string * Z) :
  checkRequired arities errs req
  = errs ++ finding (fun name => arities !! name) req.
Proof.
  destruct req as [name arity]. unfold checkRequired, finding. simpl.
  destruct (arities !! name) as [actual|]; [|reflexivity].
  repeat case_decide; try congruence; by rewrite ?app_nil_r.
Qed.

Lemma foldl_checkRequired (arities : gmap string Z)
  (order : list (string * Z)) (errs : list error) :
  foldl (checkRequired arities) errs order
  = errs ++ flat_map (finding (fun name => arities !! name)) order.
Proof.
  revert errs. induction order as [|req order IH]; intros errs; simpl.
  - by rewrite app_nil_r.
  - by rewrite IH, checkRequired_finding, app_assoc.
Qed.

Lemma finding_ext (f g : string -> option Z) (order : list (string * Z)) :
  (forall name, f name = g name) ->
  flat_map (finding f) order = flat_map (finding g) order.
Proof.
  intros H. apply flat_map_ext. intros req. unfold finding. by rewrite H.
Qed.

Lemma flat_map_perm {A B : Type} (f : A -> list B) (l1 l2 : list A) :
  l1 ≡ₚ l2 -> flat_map f l1 ≡ₚ flat_map f l2.
Proof.
  induction 1 as [|x l1 l2 _ IH|x y l|l1 l2 l3 _ IH1 _ IH2]; simpl.
  - reflexivity.
  - by rewrite IH.
  - rewrite !app_assoc. f_equiv. apply Permutation_app_comm.
  - by rewrite IH1.
Qed.

Lemma returned_aggregate (errs : list error) :
  (if decide (length errs ≠ 0) then Returns (Some (Aggregate errs))
   else Returns None) = Returns (aggregate errs).
Proof. destruct errs; reflexivity. Qed.

Section Required.

Variable ParseModule : string -> string -> option Module * option string.

Lemma requireRulesRange_parsed (name rego : string) (m : Module)
  (order : list (string * Z)) :
  ParseModule name rego = (Some m, None) ->
  (Forall inferable (Rules m) ->
   requireRulesRange ParseModule name rego order
   = Returns (aggregate (flat_map (finding (declared (Rules m))) order)))
  /\ (~ Forall inferable (Rules m) ->
      exists pre rule post e,
        Rules m = pre ++ rule :: post /\ Forall inferable pre
        /\ (getRuleArity rule).2 = Some e
        /\ isInvalidSignature e = true
        /\ requireRulesRange ParseModule name rego order = Returns (Some e)).
Proof.
  intros Hp. unfold requireRulesRange. rewrite Hp. split.
  - intros Hall.
    destruct (collectArities_all (Rules m) ∅ Hall) as (ar & -> & Hlook).
    rewrite foldl_checkRequired, app_nil_l, returned_aggregate.
    do 2 f_equal. apply finding_ext. intros n. rewrite Hlook.
    destruct (declared (Rules m) n); [reflexivity | apply lookup_empty].
  - intros Hn.
    destruct (first_not_inferable _ Hn) as (pre & rule & post & e & Hr & Hpre & He).
    exists pre, rule, post, e. repeat split; try done.
    + by apply (getRuleArity_error rule).
    + rewrite Hr, (collectArities_stops pre post rule e) by done. reflexivity.
Qed.

(** C3. On a source that parses, [requireRules] returns the invalid-signature
    error of the first declared rule whose arity cannot be inferred, and
    nothing else (no aggregate is built); when every arity can be inferred it
    goes through the required (name, arity) pairs, adds a missing-rule entry
    for a name no rule declares and an arity-mismatch entry for a name
    declared with another arity, and returns the aggregate of these entries,
    or success when there is none. Every required pair is looked at once. *)
Theorem requireRules_aborts_or_aggregates (name rego : string) (m : Module)
  (reqs : gmap string Z) (order : list (string * Z)) :
  ParseModule name rego = (Some m, None) ->
  rangeOf reqs order ->
  (Forall inferable (Rules m) ->
   requireRulesRange ParseModule name rego order
   = Returns (aggregate (flat_map (finding (declared (Rules m))) order))
   /\ flat_map (finding (declared (Rules m))) order
      ≡ₚ flat_map (finding (declared (Rules m))) (map_to_list reqs))
  /\ (~ Forall inferable (Rules m) ->
      exists pre rule post e,
        Rules m = pre ++ rule :: post /\ Forall inferable pre
        /\ (getRuleArity rule).2 = Some e
        /\ isInvalidSignature e = true
        /\ requireRulesRange ParseModule name rego order = Returns (Some e)).
Proof.
  intros Hp Hrange.
  destruct (requireRulesRange_parsed name rego m order Hp) as [Hok Hbad].
  split; [|exact Hbad].
  intros Hall. split; [by apply Hok|]. by apply flat_map_perm.
Qed.

(** C10. With nothing required, [requireRules] on a source that parses
    succeeds exactly when the arity of every declared rule can be inferred;
    otherwise it returns an invalid-signature error. *)
Theorem requireRules_nothing_required (name rego : string) (m : Module) :
  ParseModule name rego = (Some m, None) ->
  requireRules ParseModule name rego ∅
    (requireRulesRange ParseModule name rego [])
  /\ forall res,
       requireRules ParseModule name rego ∅ res ->
       (res = Returns None <-> Forall inferable (Rules m))
       /\ (~ Forall inferable (Rules m) ->
           exists e, isInvalidSignature e = true /\ res = Returns (Some e)).
Proof.
  intros Hp. split.
  - exists []. split; [|reflexivity]. unfold rangeOf.
    by rewrite map_to_list_empty.
  - intros res (order & Hrange & <-).
    unfold rangeOf in Hrange. rewrite map_to_list_empty in Hrange.
    apply Permutation_nil_r in Hrange. subst order.
    destruct (requireRulesRange_parsed name rego m [] Hp) as [Hok Hbad].
    split.
    + split.
      * intros Hres.
        destruct (decide (Forall inferable (Rules m))) as [|Hn]; [done|].
        destruct (Hbad Hn) as (_ & _ & _ & e & _ & _ & _ & _ & He).
        congruence.
      * intros Hall. by rewrite Hok.
    + intros Hn.
      destruct (Hbad Hn) as (_ & _ & _ & e & _ & _ & _ & Hsig & He).
      eauto.
Qed.

(** C8, as the code has it. Two calls of [requireRules] with the same
    arguments agree on whether they fail and on which findings they report;
    the entries of the aggregate come in the order in which the runtime
    ranges over the map of requirements, so the two lists are permutations
    of one another. The map of valid fields has a single entry, so the
    message of [makeInvalidRootFieldErr] does not depend on that order. *)
Theorem requireRules_same_findings (name rego : string)
  (reqs : gmap string Z) (r1 r2 : Outcome (option error)) :
  requireRules ParseModule name rego reqs r1 ->
  requireRules ParseModule name rego reqs r2 ->
  sameFindings r1 r2
  /\ forall order, order ≡ₚ map_to_list validDataFields ->
                   order = [("inventory", true)].
Proof.
  intros (o1 & H1 & <-) (o2 & H2 & <-). split.
  - unfold rangeOf in *. assert (o1 ≡ₚ o2) as Hperm by by rewrite H1, H2.
    unfold sameFindings, requireRulesRange.
    destruct (ParseModule name rego) as [[m|] [d|]]; try by left.
    destruct (collectArities (Rules m) ∅) as [ar|e]; [|by left].
    rewrite !foldl_checkRequired, !app_nil_l, !returned_aggregate.
    pose proof (flat_map_perm (finding (fun n => ar !! n)) o1 o2 Hperm) as Hf.
    destruct (flat_map _ o1) as [|e1 l1].
    + apply Permutation_nil_l in Hf. rewrite Hf. by left.
    + destruct (flat_map _ o2) as [|e2 l2].
      * by apply Permutation_nil_r in Hf.
      * right. eauto.
  - intros order Ho. unfold validDataFields in Ho.
    rewrite map_to_list_singleton in Ho. by apply Permutation_singleton_r in Ho.
Qed.

End Required.

Lemma twoRequired_range : rangeOf twoRequiredMap twoRequired.
Proof.
  unfold rangeOf, twoRequiredMap. symmetry. apply map_to_list_to_map.
  apply (bool_decide_unpack _). vm_compute. exact I.
Defined.

Lemma twoRequired_range_rev : rangeOf twoRequiredMap (rev twoRequired).
Proof.
  unfold rangeOf.
  transitivity twoRequired; [|exact twoRequired_range].
  apply Permutation_swap.
Defined.

Lemma fooModule_inferable : Forall inferable (Rules fooModule).
Proof. repeat constructor. Defined.

(** The sample module declares [violation] with arity 1: [deny] is missing
    and [violation] does not have arity 2. *)
Lemma requireRules_two_findings :
  requireRulesRange sampleParse "k" fooSource twoRequired
  = Returns (Some (Aggregate [MissingRule "deny";
                              ArityMismatch "violation" 1 2])).
Proof.
  destruct (requireRules_aborts_or_aggregates sampleParse "k" fooSource
              fooModule twoRequiredMap twoRequired (sampleParse_foo "k")
              twoRequired_range)
    as [H _].
  destruct (H fooModule_inferable) as [-> _]. reflexivity.
Defined.

Lemma requireRules_nothing_required_sample :
  requireRulesRange sampleParse "k" fooSource [] = Returns None.
Proof.
  destruct (requireRules_nothing_required sampleParse "k" fooSource fooModule
              (sampleParse_foo "k")) as [Hrun Hres].
  destruct (Hres _ Hrun) as [Hiff _].
  apply Hiff, fooModule_inferable.
Defined.

Lemma requireRules_two_orders :
  requireRules sampleParse "k" fooSource twoRequiredMap
    (Returns (Some (Aggregate [MissingRule "deny";
                               ArityMismatch "violation" 1 2])))
  /\ requireRules sampleParse "k" fooSource twoRequiredMap
       (Returns (Some (Aggregate [ArityMismatch "violation" 1 2;
                                  MissingRule "deny"]))).
Proof.
  split.
  - exists twoRequired.
    split; [apply twoRequired_range | vm_compute; reflexivity].
  - exists (rev twoRequired).
    split; [apply twoRequired_range_rev | vm_compute; reflexivity].
Qed.

Lemma requireRules_same_findings_sample :
  sameFindings
    (Returns (Some (Aggregate [MissingRule "deny";
                               ArityMismatch "violation" 1 2])))
    (Returns (Some (Aggregate [ArityMismatch "violation" 1 2;
                               MissingRule "deny"]))).
Proof.
  destruct requireRules_two_orders as [H1 H2].
  exact (proj1 (requireRules_same_findings sampleParse "k" fooSource
                  twoRequiredMap _ _ H1 H2)).
Defined.

(** C8 as stated fails: the same call may return the two findings in either
    order. *)
Lemma aggregate_order_not_fixed :
  ~ (forall (P : string -> string -> option Module * option string)
       (name rego : string) (reqs : gmap string Z)
       (r1 r2 : Outcome (option error)),
       requireRules P name rego reqs r1 ->
       requireRules P name rego reqs r2 -> r1 = r2).
Proof.
  intros H. destruct requireRules_two_orders as [H1 H2].
  specialize (H _ _ _ _ _ _ H1 H2). discriminate H.
Qed.

End rules.

(** ** [Errors.Error] *)

Module rendering.
Import ast client spec.

Lemma append_assoc (a b c : string) : (a +:+ b) +:+ c = a +:+ (b +:+ c).
Proof.
  induction a as [|ch a IH]; [reflexivity|].
  change (String.String ch ((a +:+ b) +:+ c)
          = String.String ch (a +:+ b +:+ c)).
  by rewrite IH.
Qed.

Lemma Join_cons (e : string) (rest : list string) (sep : string) :
  rest <> [] -> strings.Join (e :: rest) sep = e +:+ sep +:+ strings.Join rest sep.
Proof. destruct rest; [done | reflexivity]. Qed.

Lemma Join_blanks (n : nat) (l : list string) (sep : string) :
  l <> [] ->
  strings.Join (replicate n "" ++ l) sep
  = separators n sep +:+ strings.Join l sep.
Proof.
  intros Hl. induction n as [|n IH]; [reflexivity|].
  change (replicate (S n) "" ++ l) with ("" :: (replicate n "" ++ l)).
  rewrite Join_cons, IH.
  - change (separators (S n) sep) with (sep +:+ separators n sep).
    rewrite append_assoc. reflexivity.
  - destruct n; [exact Hl | discriminate].
Qed.

Lemma appended_texts {E : Type} `{GoError E} (errs : list E) (s : list string) :
  foldl (fun s e => s ++ [Error e]) s errs = s ++ map Error errs.
Proof.
  revert s. induction errs as [|e errs IH]; intros s; simpl.
  - by rewrite app_nil_r.
  - by rewrite IH, <- app_assoc.
Qed.

(** C7, what the code renders. The slice is made with [len(errs)] empty
    strings and the messages are appended after them, so the text of an
    aggregate of n entries is n newlines followed by the n messages joined
    by newlines: the joined messages are there, behind n empty entries. *)
Theorem Errors_Error_leading_newlines {E : Type} `{GoError E}
  (e : E) (errs : list E) :
  Errors_Error (e :: errs)
  = strings.Join (replicate (S (length errs)) "" ++ map Error (e :: errs))
      newline
  /\ Errors_Error (e :: errs)
     = separators (S (length errs)) newline
       +:+ strings.Join (map Error (e :: errs)) newline.
Proof.
  assert (Errors_Error (e :: errs)
          = strings.Join
              (replicate (S (length errs)) "" ++ map Error (e :: errs))
              newline) as Heq.
  { unfold Errors_Error. by rewrite appended_texts. }
  split; [exact Heq|].
  rewrite Heq. apply Join_blanks. discriminate.
Qed.

(** An aggregate of the single entry [Missing required rule: deny] renders
    with a newline in front. *)
Lemma Errors_Error_one_entry :
  @Errors_Error error (errorText (fun _ => "")) [MissingRule "deny"]
  = newline +:+ "Missing required rule: deny"
  /\ @Errors_Error error (errorText (fun _ => "")) [MissingRule "deny"]
     <> strings.Join ["Missing required rule: deny"] newline.
Proof.
  destruct (@Errors_Error_leading_newlines error (errorText (fun _ => ""))
              (MissingRule "deny") []) as [_ ->].
  split; [reflexivity | discriminate].
Defined.

End rendering.

(** ** [ensureRegoConformance] *)

Module conformance.
Import ast client refs spec samples sample_facts data_access.

Lemma packageRef_canonical (path : string) :
  packageRef path = canonicalPath path.
Proof.
  unfold packageRef, canonicalPath.
  generalize (strings.Split path ".") as parts, [Var "data"] as acc.
  induction parts as [|v parts IH]; intros acc; simpl.
  - by rewrite app_nil_r.
  - rewrite IH. by rewrite <- app_assoc.
Qed.

Lemma cleared_refs (m : Module) :
  Imports m = [] ->
  ModuleRefs (setPath m []) = [] :: flat_map RuleRefs (Rules m).
Proof. intros Hi. unfold ModuleRefs. simpl. by rewrite Hi. Qed.

Lemma cleared_walk (m : Module) :
  Imports m = [] ->
  checkDataAccess (setPath m []) = flat_map refErrors (flat_map RuleRefs (Rules m)).
Proof.
  intros Hi. rewrite checkDataAccess_flat_map, cleared_refs by done.
  reflexivity.
Qed.

Section Conformance.

Variable ParseModule : string -> string -> option Module * option string.
Variable ModuleString : Module -> string.

(** What a successful call has done. *)
Lemma ensure_success (kind path rego out : string) :
  ensureRegoConformance ParseModule ModuleString kind path rego = Returns (out, None) ->
  rego <> ""
  /\ exists m,
       ParseModule kind rego = (Some m, None)
       /\ Imports m = []
       /\ checkDataAccess (setPath m []) = []
       /\ out = ModuleString (setPath m (packageRef path)).
Proof.
  unfold ensureRegoConformance.
  case_decide as He; [discriminate|].
  destruct (ParseModule kind rego) as [[m|] [d|]]; try discriminate.
  case_decide as Hi; [discriminate|].
  destruct (checkDataAccess (setPath m [])) eqn:Hc; [|discriminate].
  intros [= <-]. split; [done|]. exists m.
  split; [reflexivity|]. split; [|split; [exact Hc | reflexivity]].
  destruct (Imports m); [reflexivity | simpl in Hi; lia].
Qed.

Lemma ensure_runs (kind path rego : string) (m : Module) :
  rego <> "" -> ParseModule kind rego = (Some m, None) -> Imports m = [] ->
  checkDataAccess (setPath m []) = [] ->
  ensureRegoConformance ParseModule ModuleString kind path rego = Returns (ModuleString (setPath m (packageRef path)), None).
Proof.
  intros He Hp Hi Hc. unfold ensureRegoConformance.
  rewrite decide_False by done. rewrite Hp.
  destruct (decide (length (Imports m) ≠ 0)) as [Hn|_];
    [by rewrite Hi in Hn|].
  cbv zeta. by rewrite Hc.
Qed.

(** The empty-source error is returned for the empty string and for no other
    source: every other source, blank ones included, goes to the parser, and
    a parser error is handed on as it is. *)
Lemma EmptySource_iff_empty_string (kind path rego : string) :
  ((exists s,
      ensureRegoConformance ParseModule ModuleString kind path rego
      = Returns (s, Some EmptySource))
   <-> rego = "")
  /\ (forall module diagnostics,
        rego <> "" ->
        ParseModule kind rego = (module, Some diagnostics) ->
        ensureRegoConformance ParseModule ModuleString kind path rego
        = Returns ("", Some (ParseError diagnostics))).
Proof.
  unfold ensureRegoConformance. split; [split|].
  - intros [s H]. case_decide as He; [done|].
    destruct (ParseModule kind rego) as [[m|] [d|]]; try discriminate.
    case_decide; [discriminate|].
    destruct (checkDataAccess _); discriminate.
  - intros ->. exists "". reflexivity.
  - intros mo d He Hp. rewrite decide_False by done. rewrite Hp.
    by destruct mo.
Qed.

(** C4, as the code has it. A non-empty source that parses to a module
    without imports. The walk runs on the module with its package path
    cleared, so what it reports comes from the rules alone, whatever the
    package declaration was. When all these references conform the walk
    finds nothing and the call returns the text the printer gives for the
    module with the canonical package path, [data] followed by the
    dot-separated parts of the desired path, rules and (absent) imports
    unchanged. When some reference violates, the call fails with the
    aggregate and nothing is printed. *)
Theorem ensureRegoConformance_rewrites_package (kind path rego : string)
  (m : Module) :
  rego <> "" ->
  ParseModule kind rego = (Some m, None) ->
  Imports m = [] ->
  checkDataAccess (setPath m [])
  = flat_map refErrors (flat_map RuleRefs (Rules m))
  /\ (Forall conforms (flat_map RuleRefs (Rules m)) ->
      exists printed,
        ensureRegoConformance ParseModule ModuleString kind path rego
        = Returns (ModuleString printed, None)
        /\ Path (Pkg printed)
           = [Var "data"] ++ map String (strings.Split path ".")
        /\ Imports printed = []
        /\ Rules printed = Rules m)
  /\ (~ Forall conforms (flat_map RuleRefs (Rules m)) ->
      exists e errs,
        checkDataAccess (setPath m []) = e :: errs
        /\ ensureRegoConformance ParseModule ModuleString kind path rego
           = Returns ("", Some (Aggregate (e :: errs)))).
Proof.
  intros He Hp Hi.
  split; [by apply cleared_walk|]. split.
  - intros Hc.
    assert (checkDataAccess (setPath m []) = []) as Hwalk.
    { rewrite cleared_walk by done. by apply no_entries_iff. }
    exists (setPath m (canonicalPath path)).
    split; [|split; [reflexivity | split; [exact Hi | reflexivity]]].
    rewrite <- packageRef_canonical. by apply ensure_runs.
  - intros Hn.
    destruct (checkDataAccess (setPath m [])) as [|e errs] eqn:Hwalk.
    + destruct Hn. apply no_entries_iff. by rewrite <- cleared_walk.
    + exists e, errs. split; [reflexivity|].
      unfold ensureRegoConformance.
      rewrite decide_False by done. rewrite Hp.
      destruct (decide (length (Imports m) ≠ 0)) as [Hl|_];
        [by rewrite Hi in Hl|].
      cbv zeta. by rewrite Hwalk.
Qed.

(** C6, what the code does on a blank source. The guard tests for the empty
    string only. For any other source on which the parser returns neither a
    module nor an error, as [ast.ParseModule] does for a source without
    statements, the imports of a nil module are read: the call panics. *)
Theorem blank_source_panics (kind path rego : string) :
  rego <> "" ->
  ParseModule kind rego = (None, None) ->
  ensureRegoConformance ParseModule ModuleString kind path rego = Panics
  /\ forall s,
       ensureRegoConformance ParseModule ModuleString kind path rego
       <> Returns (s, Some EmptySource).
Proof.
  intros He Hp. unfold ensureRegoConformance.
  rewrite decide_False by done. rewrite Hp. split; [reflexivity | discriminate].
Qed.

Lemma ensure_succeeds_iff (kind path rego : string) :
  (exists out,
     ensureRegoConformance ParseModule ModuleString kind path rego
     = Returns (out, None))
  <-> rego <> ""
      /\ exists m,
           ParseModule kind rego = (Some m, None) /\ Imports m = []
           /\ Forall conforms (flat_map RuleRefs (Rules m)).
Proof.
  split.
  - intros [out H]. apply ensure_success in H as (He & m & Hp & Hi & Hc & _).
    split; [done|]. exists m. split; [done|]. split; [done|].
    apply no_entries_iff. by rewrite <- cleared_walk.
  - intros (He & m & Hp & Hi & Hc). eexists.
    apply ensure_runs; try done.
    rewrite cleared_walk by done. by apply no_entries_iff.
Qed.

(** C9, as the code has it. After a successful call the text returned is the
    print of the parsed module under the canonical package path. A second
    call on that text is a call like any other: it succeeds exactly when the
    text is not empty and parses to a module without imports all of whose
    rule references conform, whatever package the parser reads (it is
    cleared again). When the text parses back to the rules that were
    printed, the second call returns the same text. *)
Theorem ensureRegoConformance_again (kind path rego out : string) :
  ensureRegoConformance ParseModule ModuleString kind path rego
  = Returns (out, None) ->
  exists m,
    ParseModule kind rego = (Some m, None)
    /\ out = ModuleString (setPath m (packageRef path))
    /\ ((exists out2,
           ensureRegoConformance ParseModule ModuleString kind path out
           = Returns (out2, None))
        <-> out <> ""
            /\ exists m2,
                 ParseModule kind out = (Some m2, None) /\ Imports m2 = []
                 /\ Forall conforms (flat_map RuleRefs (Rules m2)))
    /\ forall m2,
         out <> "" ->
         ParseModule kind out = (Some m2, None) ->
         Imports m2 = [] -> Rules m2 = Rules m ->
         ensureRegoConformance ParseModule ModuleString kind path out
         = Returns (out, None).
Proof.
  intros H. apply ensure_success in H as (_ & m & Hp & Hi & Hc & ->).
  exists m. split; [done|]. split; [reflexivity|].
  split; [apply ensure_succeeds_iff|].
  intros m2 Hne Hp2 Hi2 Hr2.
  assert (setPath m2 (packageRef path) = setPath m (packageRef path)) as Hsame.
  { unfold setPath. by rewrite Hi2, Hr2, Hi. }
  assert (checkDataAccess (setPath m2 []) = []) as Hc2.
  { rewrite cleared_walk by done. rewrite Hr2, <- cleared_walk by done. done. }
  rewrite (ensure_runs kind path _ m2) by done.
  by rewrite Hsame.
Qed.

End Conformance.

(** [package foo] with one conforming rule, desired path [bar.baz]: the
    package declaration alone would be flagged; the call succeeds all the
    same and returns the module printed under [package bar.baz]. *)
Lemma ensureRegoConformance_sample :
  checkDataAccess fooModule <> []
  /\ ensureRegoConformance sampleParse sampleString "k" "bar.baz" fooSource
     = Returns (barBazSource, None).
Proof.
  assert (Forall conforms (flat_map RuleRefs (Rules fooModule))) as Hc.
  { apply no_entries_iff. reflexivity. }
  destruct (ensureRegoConformance_rewrites_package sampleParse sampleString
              "k" "bar.baz" fooSource fooModule fooSource_not_empty
              (sampleParse_foo "k") eq_refl)
    as (_ & Hok & _).
  destruct (Hok Hc) as ([[p] i r] & Hrun & Hpath & Himports & Hrules).
  simpl in Hpath, Himports, Hrules. subst p i r.
  split; [intros Hd; vm_compute in Hd; discriminate Hd|].
  rewrite Hrun. vm_compute. reflexivity.
Defined.

(** C4 as stated fails for the desired path that is the empty string: the
    call succeeds, the module printed has the package path [data] followed
    by one empty segment, the printer writes nothing after the keyword
    [package], and that text does not parse. *)
Lemma empty_path_does_not_parse_back :
  ~ (forall (P : string -> string -> option Module * option string)
       (M : Module -> string) (kind path rego : string) (m : Module),
       rego <> "" ->
       P kind rego = (Some m, None) ->
       Imports m = [] ->
       Forall conforms (flat_map RuleRefs (Rules m)) ->
       exists out m2,
         ensureRegoConformance P M kind path rego = Returns (out, None)
         /\ P kind out = (Some m2, None)
         /\ Path (Pkg m2)
            = [Var "data"] ++ map String (strings.Split path ".")).
Proof.
  intros H.
  assert (Forall conforms (flat_map RuleRefs (Rules fooModule))) as Hc.
  { apply no_entries_iff. reflexivity. }
  destruct (H sampleParse sampleString "k" "" fooSource fooModule
              fooSource_not_empty (sampleParse_foo "k") eq_refl Hc)
    as (out & m2 & Hrun & Hparse & _).
  vm_compute in Hrun. injection Hrun as <-.
  vm_compute in Hparse. discriminate Hparse.
Qed.

Lemma ensureRegoConformance_again_sample :
  ensureRegoConformance sampleParse sampleString "k" "bar.baz" barBazSource
  = Returns (barBazSource, None).
Proof.
  assert (ensureRegoConformance sampleParse sampleString "k" "bar.baz"
            fooSource = Returns (barBazSource, None)) as Hfirst
    by (vm_compute; reflexivity).
  destruct (ensureRegoConformance_again sampleParse sampleString
              "k" "bar.baz" fooSource barBazSource Hfirst)
    as (m & Hp & _ & _ & Hagain).
  rewrite (sampleParse_foo "k") in Hp. injection Hp as <-.
  exact (Hagain barBazModule barBazSource_not_empty (sampleParse_barBaz "k")
           eq_refl eq_refl).
Defined.

(** C9 as stated fails for the desired path that is the empty string: the
    first call succeeds and returns a text with nothing after the keyword
    [package]; the second call, on that text, fails with the parser's
    error. *)
Lemma second_call_fails_for_empty_path :
  ~ (forall (P : string -> string -> option Module * option string)
       (M : Module -> string) (kind path rego out : string),
       ensureRegoConformance P M kind path rego = Returns (out, None) ->
       exists out2,
         ensureRegoConformance P M kind path out = Returns (out2, None)).
Proof.
  intros H.
  destruct (H sampleParse sampleString "k" "" fooSource
              (sampleString (setPath fooModule (packageRef ""))))
    as [out2 Hsecond].
  - vm_compute. reflexivity.
  - vm_compute in Hsecond. discriminate Hsecond.
Qed.

(** A source of one space: the guard does not catch it, the parser returns
    neither module nor error, the call panics. *)
Lemma blank_source_panics_sample :
  allWhitespace " " = true
  /\ ensureRegoConformance sampleParse sampleString "k" "bar.baz" " "
     = Panics.
Proof.
  split; [reflexivity|].
  assert (" " <> "") as He by discriminate.
  exact (proj1 (blank_source_panics sampleParse sampleString "k" "bar.baz"
                  " " He (sampleParse_blank "k"))).
Defined.

End conformance.

(** ** The helpers on the sample sources *)

Module runs.
Import ast client samples.

Example empty_source :
  ensureRegoConformance sampleParse sampleString "k" "bar.baz" ""
  = Returns ("", Some EmptySource).
Proof. reflexivity. Qed.

Example unparsable_source :
  ensureRegoConformance sampleParse sampleString "k" "bar.baz" "package"
  = Returns ("", Some (ParseError "rego_parse_error")).
Proof. vm_compute. reflexivity. Qed.

Example import_refused :
  ensureRegoConformance sampleParse sampleString "k" "bar.baz" importSource
  = Returns ("", Some ImportsUsed).
Proof. vm_compute. reflexivity. Qed.

Example nested_references_refused :
  ensureRegoConformance sampleParse sampleString "k" "bar.baz" nestedSource
  = Returns ("", Some (Aggregate
                         [InvalidRootField (Ref inner) ["inventory"];
                          InvalidRootField (String "foo") ["inventory"]])).
Proof. vm_compute. reflexivity. Qed.

Example package_declaration_alone_is_flagged :
  checkDataAccess fooModule = [InvalidRootField (String "foo") ["inventory"]].
Proof. reflexivity. Qed.

Example required_rule_present :
  requireRulesRange sampleParse "k" fooSource [("violation", 1%Z)]
  = Returns None.
Proof. vm_compute. reflexivity. Qed.

Example required_rule_has_no_arity :
  requireRulesRange sampleParse "k" nestedSource [("deny", 1%Z)]
  = Returns (Some (Aggregate [ArityMismatch "deny" 0 1])).
Proof. vm_compute. reflexivity. Qed.

Example rendered_findings :
  errorText (fun _ => "")
    (Aggregate [MissingRule "deny"; ArityMismatch "violation" 1 2])
  = newline +:+ newline +:+ "Missing required rule: deny" +:+ newline
    +:+ "Rule violation has arity 1, want 2".
Proof. reflexivity. Qed.

Example empty_path_printed :
  ensureRegoConformance sampleParse sampleString "k" "" fooSource
  = Returns ("package " +:+ newline +:+ newline
             +:+ "violation[x] { data.inventory[x] }", None).
Proof. vm_compute. reflexivity. Qed.

End runs.

(** ** Package references *)

Module paths.
Import ast client refs spec notions data_access conformance.

Lemma Split_first (s : string) (c : ascii) :
  exists w ws, strings.Split s c = w :: ws.
Proof.
  induction s as [|a s IH]; simpl; [by eauto|].
  destruct (Ascii.eqb a c); [by eauto|].
  destruct IH as (w & ws & ->). by eauto.
Qed.

Lemma Join_head (a : ascii) (w : string) (ws : list string) (sep : string) :
  strings.Join (String.String a w :: ws) sep
  = String.String a (strings.Join (w :: ws) sep).
Proof. destruct ws; reflexivity. Qed.

Lemma Join_Split (s : string) (c : ascii) :
  strings.Join (strings.Split s c) (String.String c EmptyString) = s.
Proof.
  induction s as [|a s IH]; [reflexivity|].
  simpl. destruct (Ascii.eqb a c) eqn:Hac.
  - apply Ascii.eqb_eq in Hac. subst a.
    destruct (Split_first s c) as (w & ws & Hs).
    rewrite Hs in *. change (strings.Join ("" :: w :: ws) (String.String c ""))
      with (String.String c (strings.Join (w :: ws) (String.String c ""))).
    by rewrite IH.
  - destruct (Split_first s c) as (w & ws & Hs). rewrite Hs in *.
    by rewrite Join_head, IH.
Qed.

Lemma Split_length (s : string) (c : ascii) :
  length (strings.Split s c) = S (occurrences c s).
Proof.
  induction s as [|a s IH]; [reflexivity|].
  simpl. destruct (Ascii.eqb a c); simpl; [by rewrite IH|].
  destruct (Split_first s c) as (w & ws & Hs). rewrite Hs in *.
  exact IH.
Qed.

Lemma segments_back (parts : list string) :
  map segment (map String parts) = parts.
Proof. induction parts as [|p parts IH]; simpl; [done | by rewrite IH]. Qed.

Lemma string_terms_no_refs (parts : list string) :
  flat_map TermRefs (map String parts) = [].
Proof. induction parts as [|p parts IH]; [done | exact IH]. Qed.

(** X1. The package reference for a desired path has the root and one
    segment per dot-separated part: two terms more than the path has dots,
    so at least two, also for the empty path. *)
Theorem packageRef_length (path : string) :
  length (packageRef path) = 2 + occurrences "." path.
Proof.
  rewrite packageRef_canonical. unfold canonicalPath.
  rewrite length_app, length_map, Split_length. reflexivity.
Qed.

(** X2. The desired path can be read back from the package reference: its
    segments after the root, joined by dots, are the path. Two different
    desired paths therefore never give the same package reference. *)
Theorem packageRef_reads_back (path : string) :
  dottedPath (packageRef path) = path
  /\ forall other, packageRef other = packageRef path -> other = path.
Proof.
  assert (Hback : forall p, dottedPath (packageRef p) = p).
  { intros p. rewrite packageRef_canonical. unfold dottedPath, canonicalPath.
    simpl. rewrite segments_back. apply (Join_Split p "."). }
  split; [apply Hback|].
  intros other Heq. rewrite <- (Hback other), Heq. apply Hback.
Qed.

(** X3. The canonical package path is itself a reference rooted at [data]:
    walked as it stands it adds an invalid-field entry for its first
    segment, in front of what the cleared module yields, unless the desired
    path starts with the part [inventory]. *)
Theorem canonical_path_is_flagged (m : Module) (path : string) :
  checkDataAccess (setPath m (packageRef path))
  = refErrors (packageRef path) ++ checkDataAccess (setPath m [])
  /\ exists first rest,
       strings.Split path "." = first :: rest
       /\ refErrors (packageRef path)
          = if decide (first = "inventory") then []
            else [InvalidRootField (String first) ["inventory"]].
Proof.
  split.
  - rewrite !checkDataAccess_flat_map. unfold ModuleRefs. simpl.
    rewrite packageRef_canonical. unfold canonicalPath.
    change ([Var "data"] ++ map String (strings.Split path "."))
      with (Var "data" :: map String (strings.Split path ".")).
    simpl. rewrite string_terms_no_refs. reflexivity.
  - destruct (Split_first path ".") as (first & rest & Hs).
    exists first, rest. split; [exact Hs|].
    rewrite packageRef_canonical. unfold canonicalPath. rewrite Hs.
    unfold refErrors, checkRef. simpl.
    rewrite validFields_listed, allowed_field.
    case_decide; case_bool_decide; try done.
Qed.

End paths.

(** ** More on [ensureRegoConformance] and [checkDataAccess] *)

Module conformance_more.
Import ast client refs spec notions samples sample_facts walk_facts data_access
  conformance.

Lemma Violation_kind (r : list Term) (e : error) :
  Violation r e -> isDataAccessViolation e = true.
Proof. by destruct 1. Qed.

Lemma entries_are_violations (rs : list (list Term)) :
  Forall (fun e => isDataAccessViolation e = true) (flat_map refErrors rs).
Proof.
  induction rs as [|r rs IH]; simpl; [constructor|].
  apply Forall_app. split; [|exact IH].
  destruct (refErrors_cases r) as [[-> _]|(e & -> & He)]; [constructor|].
  repeat constructor. by apply (Violation_kind r).
Qed.

Lemma conforms_inventory (r : list Term) :
  conforms r -> HasPrefixRoot r = true ->
  exists rest, r = Var "data" :: String "inventory" :: rest.
Proof.
  intros Hc Hp. apply HasPrefixRoot_data in Hp as [tl ->].
  destruct tl as [|seg rest].
  - destruct (Hc _ missing_field).
  - destruct (IsGround seg) eqn:Hg.
    + destruct (inventory_or_not seg) as [->|Hne]; [by eauto|].
      destruct (Hc _ (invalid_field seg rest Hg Hne)).
    + destruct (Hc _ (literal_access seg rest Hg)).
Qed.

Section More.

Variable ParseModule : string -> string -> option Module * option string.
Variable ModuleString : Module -> string.

(** X4. A source that parses to a module with an import is refused with the
    import error whatever else it holds: the walk is not run, so its data
    accesses, good or bad, are not reported. *)
Theorem imports_always_refused (kind path rego : string) (m : Module) :
  rego <> "" ->
  ParseModule kind rego = (Some m, None) ->
  Imports m <> [] ->
  ensureRegoConformance ParseModule ModuleString kind path rego
  = Returns ("", Some ImportsUsed).
Proof.
  intros He Hp Hi. unfold ensureRegoConformance.
  rewrite decide_False by done. rewrite Hp.
  rewrite decide_True; [reflexivity|].
  destruct (Imports m); [done | simpl; lia].
Qed.

(** X5. Whenever [ensureRegoConformance] returns an error, the text it
    returns with it is empty, and the error is the empty-source error (for
    the empty source only), the parser's error, the import error, or a
    non-empty aggregate all of whose entries are data-access entries. *)
Theorem failures_classified (kind path rego s : string) (e : error) :
  ensureRegoConformance ParseModule ModuleString kind path rego
  = Returns (s, Some e) ->
  s = ""
  /\ ((e = EmptySource /\ rego = "")
      \/ (exists module d,
            ParseModule kind rego = (module, Some d) /\ e = ParseError d)
      \/ (exists m,
            ParseModule kind rego = (Some m, None) /\ Imports m <> []
            /\ e = ImportsUsed)
      \/ (exists m errs,
            ParseModule kind rego = (Some m, None)
            /\ e = Aggregate errs /\ errs <> []
            /\ errs = flat_map refErrors (flat_map RuleRefs (Rules m))
            /\ Forall (fun x => isDataAccessViolation x = true) errs)).
Proof.
  unfold ensureRegoConformance.
  case_decide as He; [intros [= <- <-]; by auto|].
  destruct (ParseModule kind rego) as [[m|] [d|]] eqn:Hp;
    try (intros [= <- <-]; split; [done|]; right; left; by eauto);
    try discriminate.
  case_decide as Hi.
  - intros [= <- <-]. split; [done|]. right; right; left.
    exists m. repeat split. intros Hn. by rewrite Hn in Hi.
  - assert (Imports m = []) as Hnil
      by (destruct (Imports m); [done | simpl in Hi; lia]).
    destruct (checkDataAccess (setPath m [])) as [|x errs] eqn:Hw;
      [discriminate|].
    intros [= <- <-]. split; [done|]. right; right; right.
    exists m, (x :: errs). rewrite <- Hw, cleared_walk by done.
    repeat split; try done.
    + rewrite <- cleared_walk, Hw by done. discriminate.
    + apply entries_are_violations.
Qed.

(** X6. What [ensureRegoConformance] accepts: the source parsed to a module
    without imports in whose rules every reference rooted at [data], at any
    depth, goes on with the literal field [inventory]; the text returned is
    that module printed under the canonical package path. *)
Theorem accepted_reads_only_inventory (kind path rego out : string) :
  ensureRegoConformance ParseModule ModuleString kind path rego
  = Returns (out, None) ->
  exists m,
    ParseModule kind rego = (Some m, None)
    /\ Imports m = []
    /\ out = ModuleString (setPath m (packageRef path))
    /\ forall r,
         r ∈ flat_map RuleRefs (Rules m) ->
         HasPrefixRoot r = true ->
         exists rest, r = Var "data" :: String "inventory" :: rest.
Proof.
  intros H. apply ensure_success in H as (_ & m & Hp & Hi & Hc & ->).
  exists m. repeat split; try done.
  intros r Hr Hroot. apply conforms_inventory; [|done].
  rewrite cleared_walk in Hc by done.
  apply no_entries_iff in Hc. rewrite Forall_forall in Hc. by apply Hc.
Qed.

End More.

(** X7. The entries of a module are those of its package path, of its
    imports and of its rules, rule after rule: rules added at the end leave
    the earlier entries as they are and add their own after them. *)
Theorem checkDataAccess_rule_after_rule (pkg : Package)
  (imports : list Import) (rules more : list Rule) :
  checkDataAccess (MkModule pkg imports (rules ++ more))
  = checkDataAccess (MkModule pkg imports rules)
    ++ checkDataAccess (rulesOnly more).
Proof.
  rewrite !checkDataAccess_flat_map. unfold ModuleRefs, rulesOnly. simpl.
  rewrite flat_map_app, !app_assoc, !flat_map_app, <- !app_assoc.
  reflexivity.
Qed.

(** X8. A reference rooted at [data] whose field is the literal [inventory]
    adds no entry of its own, whatever its later segments are, variables
    included; the references inside those later segments are checked like
    any other. *)
Theorem inventory_reference_walk (rest : list Term) (errs : list error) :
  refErrors (Var "data" :: String "inventory" :: rest) = []
  /\ WalkTerm checkRef (Ref (Var "data" :: String "inventory" :: rest)) errs
     = errs ++ flat_map refErrors (flat_map TermRefs rest).
Proof.
  split; [reflexivity|].
  rewrite (WalkTerm_as_listed checkRef checkRef_goes_on), visitAll_checkRef.
  reflexivity.
Qed.

Lemma imports_always_refused_sample :
  ensureRegoConformance sampleParse sampleString "k" "bar.baz" importSource
  = Returns ("", Some ImportsUsed).
Proof.
  apply (imports_always_refused sampleParse sampleString "k" "bar.baz"
           importSource importModule);
    [vm_compute; discriminate | apply sampleParse_import | discriminate].
Defined.

Lemma failures_classified_sample :
  exists errs,
    Aggregate [InvalidRootField (Ref inner) ["inventory"];
               InvalidRootField (String "foo") ["inventory"]]
    = Aggregate errs
    /\ Forall (fun x => isDataAccessViolation x = true) errs.
Proof.
  assert (ensureRegoConformance sampleParse sampleString "k" "bar.baz"
            nestedSource
          = Returns ("", Some (Aggregate
                                 [InvalidRootField (Ref inner) ["inventory"];
                                  InvalidRootField (String "foo")
                                    ["inventory"]]))) as Hrun
    by (vm_compute; reflexivity).
  destruct (failures_classified sampleParse sampleString "k" "bar.baz"
              nestedSource ""
              (Aggregate [InvalidRootField (Ref inner) ["inventory"];
                          InvalidRootField (String "foo") ["inventory"]])
              Hrun)
    as (_ & [[H _]|[(mo & d & _ & H)|[(m & _ & _ & H)
                                     |(m & errs & _ & H & _ & _ & Hall)]]]);
    try discriminate H.
  exists errs. by split.
Defined.

Lemma accepted_reads_only_inventory_sample :
  exists m,
    sampleParse "k" fooSource = (Some m, None)
    /\ forall r,
         r ∈ flat_map RuleRefs (Rules m) -> HasPrefixRoot r = true ->
         exists rest, r = Var "data" :: String "inventory" :: rest.
Proof.
  assert (ensureRegoConformance sampleParse sampleString "k" "bar.baz"
            fooSource = Returns (barBazSource, None)) as Hrun
    by (vm_compute; reflexivity).
  destruct (accepted_reads_only_inventory sampleParse sampleString
              "k" "bar.baz" fooSource barBazSource Hrun)
    as (m & Hp & _ & _ & Hr).
  exists m. by split.
Defined.

End conformance_more.

(** ** More on [getRuleArity] and [requireRules] *)

Module rules_more.
Import ast client spec notions samples sample_facts samples_more rules.

(** X9. [getRuleArity] never returns a negative arity, returns 0 together
    with every error, and without error returns 0 for a rule with no head
    key and for one whose head key is the empty array, and for no other. *)
Theorem getRuleArity_range (r : Rule) :
  (0 <= (getRuleArity r).1)%Z
  /\ ((getRuleArity r).2 <> None -> (getRuleArity r).1 = 0%Z)
  /\ ((getRuleArity r).2 = None ->
      ((getRuleArity r).1 = 0%Z
       <-> Key (RuleHead r) = None \/ Key (RuleHead r) = Some (Array []))).
Proof.
  destruct (Key (RuleHead r)) as [t|] eqn:Hk.
  - destruct t;
      try (unfold getRuleArity; rewrite Hk; simpl;
           repeat split; try done; try lia; intros [|]; done).
    rewrite (getRuleArity_Array r a Hk).
    destruct (forallb varOrObject a); simpl.
    + split; [lia|]. split; [done|]. intros _. split.
      * intros H. right. destruct a; [done | simpl in H; lia].
      * intros [|[= ->]]; done.
    + split; [lia|]. split; done.
  - unfold getRuleArity. rewrite Hk. simpl.
    split; [lia|]. split; [done|]. intros _. split; auto.
Qed.

Lemma declared_last (pre post : list Rule) (r : Rule) :
  Forall (fun r' => Name (RuleHead r') <> Name (RuleHead r)) post ->
  declared (pre ++ r :: post) (Name (RuleHead r)) = Some (getRuleArity r).1.
Proof.
  intros Hpost.
  assert (declared post (Name (RuleHead r)) = None) as Hnone.
  { induction Hpost as [|r' post Hr' _ IH]; [done|].
    simpl. rewrite IH. by rewrite decide_False. }
  induction pre as [|p pre IH]; simpl.
  - rewrite Hnone. by rewrite decide_True.
  - by rewrite IH.
Qed.

Lemma declared_declared (rules : list Rule) (name : string) (a : Z) :
  declared rules name = Some a ->
  exists r, r ∈ rules /\ Name (RuleHead r) = name /\ (getRuleArity r).1 = a.
Proof.
  induction rules as [|r rules IH]; [done|]. simpl.
  destruct (declared rules name) as [b|].
  - intros [= <-]. destruct (IH eq_refl) as (r' & Hin & Hr').
    exists r'. split; [by right | done].
  - case_decide; [|done]. intros [= <-]. exists r. split; [by left | done].
Qed.

Lemma finding_names (f : string -> option Z) (order : list (string * Z)) :
  map ruleOf (flat_map (finding f) order) `sublist_of` order.*1.
Proof.
  induction order as [|[n a] order IH]; [constructor|].
  simpl. unfold finding at 1. simpl.
  destruct (f n) as [got|]; simpl.
  - case_decide; simpl; [by apply sublist_cons | by apply sublist_skip].
  - by apply sublist_skip.
Qed.

Lemma finding_entries (f : string -> option Z) (order : list (string * Z)) :
  Forall (fun e =>
            exists n a, (n, a) ∈ order
              /\ ((f n = None /\ e = MissingRule n)
                  \/ (exists got, f n = Some got /\ got <> a
                                  /\ e = ArityMismatch n got a)))
         (flat_map (finding f) order).
Proof.
  induction order as [|[n a] order IH]; [constructor|].
  simpl. apply Forall_app. split.
  - unfold finding. simpl. destruct (f n) as [got|] eqn:Hf.
    + case_decide; constructor; [|constructor].
      exists n, a. split; [by left|]. right. by eauto.
    + repeat constructor. exists n, a. split; [by left|]. by left.
  - eapply Forall_impl; [exact IH|].
    intros e (n' & a' & Hin & H). exists n', a'. split; [by right | done].
Qed.

Lemma no_finding_iff (f : string -> option Z) (order : list (string * Z)) :
  flat_map (finding f) order = []
  <-> forall n a, (n, a) ∈ order -> f n = Some a.
Proof.
  induction order as [|[n a] order IH]; simpl.
  - split; [|done]. intros _ n a Hin. by apply elem_of_nil in Hin.
  - split.
    + intros H. apply app_eq_nil in H as [H1 H2].
      intros n' a' Hin. apply elem_of_cons in Hin as [[= -> ->]|Hin].
      * unfold finding in H1. simpl in H1.
        destruct (f n); [|done]. case_decide; [by subst | done].
      * by apply IH.
    + intros H. rewrite (proj2 IH); [|intros; apply H; by right].
      unfold finding. simpl. rewrite (H n a) by by left.
      by rewrite decide_True.
Qed.

Section MoreRequired.

Variable ParseModule : string -> string -> option Module * option string.

(** X10. On a source that parses, [requireRules] succeeds exactly when the
    arity of every declared rule can be inferred and every required name is
    declared with the required arity (its last declaration counting); the
    order in which the requirements are ranged over plays no part, and
    rules that are not required do no harm. *)
Theorem requireRules_succeeds_iff (name rego : string) (m : Module)
  (reqs : gmap string Z) (order : list (string * Z)) :
  ParseModule name rego = (Some m, None) ->
  rangeOf reqs order ->
  requireRulesRange ParseModule name rego order = Returns None
  <-> Forall inferable (Rules m)
      /\ forall n a, reqs !! n = Some a -> declared (Rules m) n = Some a.
Proof.
  intros Hp Hrange.
  destruct (requireRulesRange_parsed ParseModule name rego m order Hp)
    as [Hok Hbad].
  assert (Hmem : forall n a, (n, a) ∈ order <-> reqs !! n = Some a).
  { intros n a. unfold rangeOf in Hrange. rewrite Hrange.
    apply elem_of_map_to_list. }
  split.
  - intros Hres.
    destruct (decide (Forall inferable (Rules m))) as [Hall|Hn].
    + split; [done|]. rewrite (Hok Hall) in Hres.
      intros n a Hreq. apply Hmem in Hreq.
      destruct (flat_map _ order) eqn:Hf; [|discriminate].
      by apply (proj1 (no_finding_iff _ order) Hf).
    + destruct (Hbad Hn) as (_ & _ & _ & e & _ & _ & _ & _ & He). congruence.
  - intros [Hall Hreq]. rewrite (Hok Hall).
    rewrite (proj2 (no_finding_iff _ order)); [done|].
    intros n a Hin. by apply Hreq, Hmem.
Qed.

(** X11. On a source that parses, an error of [requireRules] is either the
    invalid-signature error of a declared rule, or a non-empty aggregate
    with at most one entry per required name, each entry a missing-rule
    entry for a required name that no rule declares or an arity-mismatch
    entry giving the declared and the required arity of a required name. *)
Theorem requireRules_errors (name rego : string) (m : Module)
  (reqs : gmap string Z) (order : list (string * Z)) (e : error) :
  ParseModule name rego = (Some m, None) ->
  rangeOf reqs order ->
  requireRulesRange ParseModule name rego order = Returns (Some e) ->
  (isInvalidSignature e = true
   /\ exists r, r ∈ Rules m /\ (getRuleArity r).2 = Some e)
  \/ (exists errs,
        e = Aggregate errs /\ errs <> []
        /\ NoDup (map ruleOf errs)
        /\ length errs <= size reqs
        /\ Forall (fun x =>
                     exists n a, reqs !! n = Some a
                       /\ ((declared (Rules m) n = None /\ x = MissingRule n)
                           \/ (exists got,
                                 declared (Rules m) n = Some got /\ got <> a
                                 /\ x = ArityMismatch n got a))) errs).
Proof.
  intros Hp Hrange Hres.
  destruct (requireRulesRange_parsed ParseModule name rego m order Hp)
    as [Hok Hbad].
  destruct (decide (Forall inferable (Rules m))) as [Hall|Hn].
  - right. rewrite (Hok Hall) in Hres.
    destruct (flat_map (finding (declared (Rules m))) order) as [|x l] eqn:Hf;
      [discriminate|].
    injection Hres as <-. exists (x :: l). rewrite <- Hf.
    pose proof (finding_names (declared (Rules m)) order) as Hsub.
    assert (NoDup order.*1) as Hnd.
    { unfold rangeOf in Hrange. rewrite Hrange. apply NoDup_fst_map_to_list. }
    split; [done|]. split; [by rewrite Hf|].
    split; [by eapply sublist_NoDup|]. split.
    + apply sublist_length in Hsub.
      rewrite length_map in Hsub. rewrite length_fmap in Hsub.
      assert (length order = size reqs) as Hlen.
      { unfold rangeOf in Hrange. apply Permutation_length in Hrange.
        by rewrite Hrange, length_map_to_list. }
      by rewrite <- Hlen.
    + eapply Forall_impl; [apply finding_entries|].
      intros y (n & a & Hin & H). exists n, a. split; [|exact H].
      unfold rangeOf in Hrange. rewrite Hrange in Hin.
      by apply elem_of_map_to_list.
  - left. destruct (Hbad Hn) as (pre & r & post & e' & Hr & _ & He & Hs & Hret).
    rewrite Hret in Hres. injection Hres as <-.
    split; [done|]. exists r. split; [|done].
    rewrite Hr. apply elem_of_app. right. by left.
Qed.

(** X12. When a name is declared more than once, the last declaration is the
    one that counts: a requirement for the name of a rule after which no
    rule of that name follows is met exactly by the arity of that rule. *)
Theorem last_declaration_counts (name rego : string) (m : Module)
  (pre post : list Rule) (r : Rule) (want : Z) :
  ParseModule name rego = (Some m, None) ->
  Rules m = pre ++ r :: post ->
  Forall inferable (Rules m) ->
  Forall (fun r' => Name (RuleHead r') <> Name (RuleHead r)) post ->
  requireRulesRange ParseModule name rego [(Name (RuleHead r), want)]
  = if decide (want = (getRuleArity r).1) then Returns None
    else Returns (Some (Aggregate
           [ArityMismatch (Name (RuleHead r)) (getRuleArity r).1 want])).
Proof.
  intros Hp Hr Hall Hpost.
  destruct (requireRulesRange_parsed ParseModule name rego m
              [(Name (RuleHead r), want)] Hp) as [Hok _].
  rewrite (Hok Hall). simpl. unfold finding. simpl.
  rewrite Hr, declared_last by done.
  repeat case_decide; try congruence; reflexivity.
Qed.

End MoreRequired.

Lemma requireRules_succeeds_sample :
  requireRulesRange sampleParse "k" fooSource [("violation", 1%Z)]
  = Returns None.
Proof.
  apply (requireRules_succeeds_iff sampleParse "k" fooSource fooModule
           {["violation" := 1%Z]} [("violation", 1%Z)] (sampleParse_foo "k")).
  - unfold rangeOf. by rewrite map_to_list_singleton.
  - split; [apply fooModule_inferable|].
    intros n a Hn. apply lookup_singleton_Some in Hn as [<- <-]. reflexivity.
Defined.

Lemma requireRules_errors_sample :
  NoDup (map ruleOf [MissingRule "deny"; ArityMismatch "violation" 1 2]).
Proof.
  assert (requireRulesRange sampleParse "k" fooSource twoRequired
          = Returns (Some (Aggregate [MissingRule "deny";
                                      ArityMismatch "violation" 1 2])))
    as Hrun by (vm_compute; reflexivity).
  destruct (requireRules_errors sampleParse "k" fooSource fooModule
              twoRequiredMap twoRequired
              (Aggregate [MissingRule "deny"; ArityMismatch "violation" 1 2])
              (sampleParse_foo "k") twoRequired_range Hrun)
    as [[H _]|(errs & [= <-] & _ & Hnd & _)]; [discriminate H | exact Hnd].
Defined.

Lemma last_declaration_counts_sample :
  requireRulesRange twiceParse "k" "twice" [("violation", 1%Z)] = Returns None
  /\ requireRulesRange twiceParse "k" "twice" [("violation", 2%Z)]
     = Returns (Some (Aggregate [ArityMismatch "violation" 1 2])).
Proof.
  assert (Forall inferable (Rules twiceModule)) as Hall
    by (repeat constructor).
  split.
  - apply (last_declaration_counts twiceParse "k" "twice" twiceModule
             [MkRule false
                (MkHead "violation" [] (Some (Array [Var "x"; Var "y"])) None)
                [] None] [] violationRule 1%Z eq_refl eq_refl Hall).
    constructor.
  - apply (last_declaration_counts twiceParse "k" "twice" twiceModule
             [MkRule false
                (MkHead "violation" [] (Some (Array [Var "x"; Var "y"])) None)
                [] None] [] violationRule 2%Z eq_refl eq_refl Hall).
    constructor.
Defined.

End rules_more.

(** ** More on the error aggregate *)

Module rendering_more.
Import ast client spec notions rendering.

(** X13. The text of an aggregate is empty only for the empty aggregate:
    with one entry or more it starts with a newline, even when every entry
    has an empty message. *)
Theorem Errors_Error_empty_iff {E : Type} `{GoError E} (errs : list E) :
  Errors_Error errs = "" <-> errs = [].
Proof.
  split; [|intros ->; reflexivity].
  destruct errs as [|e errs]; [done|]. intros Htext.
  unfold Errors_Error in Htext. rewrite appended_texts in Htext.
  rewrite Join_blanks in Htext by discriminate.
  discriminate Htext.
Qed.

Lemma listed_keys (kvs : list (string * bool)) (acc : list string) :
  foldl (fun validFields kv => validFields ++ [kv.1]) acc kvs
  = acc ++ kvs.*1.
Proof.
  revert acc. induction kvs as [|kv kvs IH]; intros acc; simpl.
  - by rewrite app_nil_r.
  - by rewrite IH, <- app_assoc.
Qed.

(** X14. [makeInvalidRootFieldErr] names as valid fields the keys of the map
    it is given, each once, whatever boolean a key is mapped to: a field
    mapped to [false] is listed as valid too. *)
Theorem makeInvalidRootFieldErr_lists_keys (val : Value)
  (allowed : gmap string bool) :
  exists validFields,
    makeInvalidRootFieldErr val allowed = InvalidRootField val validFields
    /\ NoDup validFields
    /\ forall field, field ∈ validFields <-> is_Some (allowed !! field).
Proof.
  exists (map_to_list allowed).*1. split; [|split].
  - unfold makeInvalidRootFieldErr. by rewrite listed_keys.
  - apply NoDup_fst_map_to_list.
  - intros field. rewrite list_elem_of_fmap. split.
    + intros ([k b] & -> & Hin). apply elem_of_map_to_list in Hin. by eauto.
    + intros [b Hb]. exists (field, b). split; [done|].
      by apply elem_of_map_to_list.
Qed.

End rendering_more.

(** ** The result types *)

Module types_facts.
Import client types samples_more rendering.

Section Facts.

Context {Result : Type} (Sdump : Result -> string).

Lemma append_empty (s : string) : s +:+ "" = s.
Proof.
  induction s as [|a s IH]; [reflexivity|].
  change (String.String a (s +:+ "") = String.String a s). by rewrite IH.
Qed.

Lemma dumped_sections (rs : list Result) (i : nat) (b : string) :
  (foldl (dumpResult Result Sdump) (i, b) rs).2
  = b +:+ resultSections Result Sdump i rs.
Proof.
  revert i b. induction rs as [|r rs IH]; intros i b; simpl.
  - by rewrite append_empty.
  - rewrite IH. unfold resultSection. by rewrite !append_assoc.
Qed.

Lemma sections_app (rs more : list Result) (i : nat) :
  resultSections Result Sdump i (rs ++ more)
  = resultSections Result Sdump i rs
    +:+ resultSections Result Sdump (i + length rs) more.
Proof.
  revert i. induction rs as [|r rs IH]; intros i; simpl.
  - by rewrite Nat.add_0_r.
  - rewrite IH, append_assoc. by rewrite Nat.add_succ_comm.
Qed.

(** X15. [TraceDump] writes one section per result, in order and numbered
    from 0: with further results at the end of the list the dump is the
    former dump followed by their sections, the numbering going on from the
    number of results there were. *)
Theorem TraceDump_more_results (r : Response Result) (more : list Result) :
  TraceDump Result Sdump (moreResults r more)
  = TraceDump Result Sdump r
    +:+ resultSections Result Sdump (length (Results r)) more.
Proof.
  unfold TraceDump, moreResults. simpl.
  rewrite !dumped_sections, sections_app, !append_assoc. reflexivity.
Qed.

Lemma Results_panicked (order : list (string * option (Response Result))) :
  foldl (fun res kv =>
           match res with
           | Panics => Panics
           | Returns res =>
               match kv.2 with
               | None => Panics
               | Some resp => Returns (res ++ Results resp)
               end
           end) Panics order = Panics.
Proof. induction order as [|kv order IH]; [done | exact IH]. Qed.

Lemma Results_gathered (order : list (string * option (Response Result))) :
  Forall (fun kv => is_Some kv.2) order ->
  forall acc,
    foldl (fun res kv =>
             match res with
             | Panics => Panics
             | Returns res =>
                 match kv.2 with
                 | None => Panics
                 | Some resp => Returns (res ++ Results resp)
                 end
             end) (Returns acc) order
    = Returns (acc ++ flat_map (fun kv => from_option Results [] kv.2) order).
Proof.
  induction 1 as [|[k o] order [resp Ho] _ IH]; intros acc; simpl.
  - by rewrite app_nil_r.
  - simpl in Ho. subst o. rewrite IH. simpl. by rewrite app_assoc.
Qed.

Lemma Results_nil_panics (order : list (string * option (Response Result))) :
  Exists (fun kv => kv.2 = None) order ->
  forall res,
    foldl (fun res kv =>
             match res with
             | Panics => Panics
             | Returns res =>
                 match kv.2 with
                 | None => Panics
                 | Some resp => Returns (res ++ Results resp)
                 end
             end) res order = Panics.
Proof.
  induction 1 as [[k o] order Ho|kv order _ IH]; intros res; simpl.
  - simpl in Ho. subst o. destruct res; apply Results_panicked.
  - apply IH.
Qed.

Lemma range_all_set (rs : gmap string (option (Response Result)))
  (order : list (string * option (Response Result))) :
  ResponsesRange rs order ->
  Forall (fun kv => is_Some kv.2) order <-> forall k, rs !! k <> Some None.
Proof.
  intros Hrange. unfold ResponsesRange in Hrange.
  rewrite Forall_forall. split.
  - intros H k Hk. apply elem_of_map_to_list in Hk.
    rewrite <- Hrange in Hk. destruct (H _ Hk) as [? Hs]. discriminate Hs.
  - intros H [k [resp|]] Hin; [by eexists|].
    rewrite Hrange in Hin. apply elem_of_map_to_list in Hin. by destruct (H k).
Qed.

Lemma Results_of_map
  (rs : gmap string (option (Response Result)))
  (order : list (string * option (Response Result))) :
  ResponsesRange rs order ->
  (Responses_Results (Some rs) order = Panics
   <-> exists k, rs !! k = Some None)
  /\ ((forall k, rs !! k <> Some None) ->
      Responses_Results (Some rs) order
      = Returns (flat_map (fun kv => from_option Results [] kv.2) order)
      /\ forall x,
           x ∈ flat_map (fun kv => from_option Results [] kv.2) order
           <-> exists k resp, rs !! k = Some (Some resp) /\ x ∈ Results resp).
Proof.
  intros Hrange. pose proof (range_all_set rs order Hrange) as Hset.
  unfold Responses_Results. split.
  - split.
    + intros Hp.
      destruct (decide (Forall (fun kv : string * option (Response Result) =>
                                  is_Some kv.2) order)) as [Hall|Hn].
      * rewrite (Results_gathered order Hall) in Hp. discriminate Hp.
      * apply not_Forall_Exists in Hn; [|intros kv; apply _].
        apply Exists_exists in Hn as ([k [resp|]] & Hin & Hnone).
        -- destruct Hnone. by eexists.
        -- exists k. unfold ResponsesRange in Hrange. rewrite Hrange in Hin.
           by apply elem_of_map_to_list.
    + intros [k Hk]. apply Results_nil_panics. apply Exists_exists.
      exists (k, None). split; [|done].
      unfold ResponsesRange in Hrange. rewrite Hrange.
      by apply elem_of_map_to_list.
  - intros Hsome. rewrite Results_gathered by by apply Hset.
    split; [reflexivity|]. intros x.
    unfold ResponsesRange in Hrange. split.
    + intros Hx. apply list_elem_of_In, in_flat_map in Hx
        as ([k [resp|]] & Hin & Hx); simpl in Hx; [|done].
      exists k, resp. split; [|by apply list_elem_of_In].
      apply list_elem_of_In in Hin. rewrite Hrange in Hin.
      by apply elem_of_map_to_list.
    + intros (k & resp & Hk & Hx).
      apply list_elem_of_In, in_flat_map. exists (k, Some resp).
      split; [|by apply list_elem_of_In].
      apply list_elem_of_In. rewrite Hrange. by apply elem_of_map_to_list.
Qed.

Lemma dumps_panicked (order : list (string * option (Response Result))) :
  foldl (fun b kv =>
           match b with
           | Panics => Panics
           | Returns b =>
               match kv.2 with
               | None => Panics
               | Some resp =>
                   Returns ((b +:+ TraceDump Result Sdump resp +:+ newline)
                            +:+ "" +:+ newline)
               end
           end) Panics order = Panics.
Proof. induction order as [|kv order IH]; [done | exact IH]. Qed.

Lemma dumps_written (order : list (string * option (Response Result))) :
  Forall (fun kv => is_Some kv.2) order ->
  forall b,
    foldl (fun b kv =>
             match b with
             | Panics => Panics
             | Returns b =>
                 match kv.2 with
                 | None => Panics
                 | Some resp =>
                     Returns ((b +:+ TraceDump Result Sdump resp +:+ newline)
                              +:+ "" +:+ newline)
                 end
             end) (Returns b) order
    = Returns (b +:+ responseDumps Result Sdump order).
Proof.
  induction 1 as [|[k o] order [resp Ho] _ IH]; intros b; simpl.
  - by rewrite append_empty.
  - simpl in Ho. subst o. rewrite IH. simpl. by rewrite !append_assoc.
Qed.

Lemma dumps_nil_panics (order : list (string * option (Response Result))) :
  Exists (fun kv => kv.2 = None) order ->
  forall b,
    foldl (fun b kv =>
             match b with
             | Panics => Panics
             | Returns b =>
                 match kv.2 with
                 | None => Panics
                 | Some resp =>
                     Returns ((b +:+ TraceDump Result Sdump resp +:+ newline)
                              +:+ "" +:+ newline)
                 end
             end) b order = Panics.
Proof.
  induction 1 as [[k o] order Ho|kv order _ IH]; intros b; simpl.
  - simpl in Ho. subst o. destruct b; apply dumps_panicked.
  - apply IH.
Qed.

Lemma dumps_of_map
  (rs : gmap string (option (Response Result)))
  (order : list (string * option (Response Result))) :
  ResponsesRange rs order ->
  (Responses_TraceDump Result Sdump (Some rs) order = Panics
   <-> exists k, rs !! k = Some None)
  /\ ((forall k, rs !! k <> Some None) ->
      Responses_TraceDump Result Sdump (Some rs) order
      = Returns (responseDumps Result Sdump order))
  /\ (rs = ∅ ->
      Responses_TraceDump Result Sdump (Some rs) order = Returns "").
Proof.
  intros Hrange. pose proof (range_all_set rs order Hrange) as Hset.
  unfold Responses_TraceDump. split; [split|split].
  - intros Hp.
    destruct (decide (Forall (fun kv : string * option (Response Result) =>
                                is_Some kv.2) order)) as [Hall|Hn].
    + rewrite (dumps_written order Hall) in Hp. discriminate Hp.
    + apply not_Forall_Exists in Hn; [|intros kv; apply _].
      apply Exists_exists in Hn as ([k [resp|]] & Hin & Hnone).
      * destruct Hnone. by eexists.
      * exists k. unfold ResponsesRange in Hrange. rewrite Hrange in Hin.
        by apply elem_of_map_to_list.
  - intros [k Hk]. apply dumps_nil_panics. apply Exists_exists.
    exists (k, None). split; [|done].
    unfold ResponsesRange in Hrange. rewrite Hrange.
    by apply elem_of_map_to_list.
  - intros Hsome. by rewrite dumps_written by by apply Hset.
  - intros ->. unfold ResponsesRange in Hrange.
    rewrite map_to_list_empty in Hrange.
    apply Permutation_nil_r in Hrange. by subst order.
Qed.

(** X16. [Results] panics exactly when its receiver is nil or some target is
    mapped to a nil response. Otherwise it returns the results of all
    responses, those of one response together and in their order, the
    responses in the order ranged over: a result is returned exactly when it
    is among the results of a response of the map. *)
Theorem Responses_Results_gathers
  (r : option (gmap string (option (Response Result))))
  (order : list (string * option (Response Result))) :
  ReceiverRange r order ->
  (Responses_Results r order = Panics
   <-> r = None \/ exists rs k, r = Some rs /\ rs !! k = Some None)
  /\ (forall rs,
        r = Some rs ->
        (forall k, rs !! k <> Some None) ->
        Responses_Results r order
        = Returns (flat_map (fun kv => from_option Results [] kv.2) order)
        /\ forall x,
             x ∈ flat_map (fun kv => from_option Results [] kv.2) order
             <-> exists k resp,
                   rs !! k = Some (Some resp) /\ x ∈ Results resp).
Proof.
  destruct r as [rs|]; simpl; intros Hrange.
  - destruct (Results_of_map rs order Hrange) as [Hpanic Hgather].
    split.
    + rewrite Hpanic. split.
      * intros [k Hk]. right. by exists rs, k.
      * intros [Hnone|(rs' & k & [= <-] & Hk)]; [discriminate | by exists k].
    + intros rs' [= <-]. exact Hgather.
  - split; [|intros rs Hrs; discriminate Hrs].
    split; [by left | reflexivity].
Qed.

(** X17. [TraceDump] over the responses panics exactly when its receiver is
    nil or some target is mapped to a nil response, as [Results] does.
    Otherwise its text is the dump of each response followed by two
    newlines, the responses in the order ranged over; for a map without
    targets it is empty. *)
Theorem Responses_TraceDump_text
  (r : option (gmap string (option (Response Result))))
  (order : list (string * option (Response Result))) :
  ReceiverRange r order ->
  (Responses_TraceDump Result Sdump r order = Panics
   <-> r = None \/ exists rs k, r = Some rs /\ rs !! k = Some None)
  /\ (forall rs,
        r = Some rs ->
        (forall k, rs !! k <> Some None) ->
        Responses_TraceDump Result Sdump r order
        = Returns (responseDumps Result Sdump order))
  /\ (r = Some ∅ -> Responses_TraceDump Result Sdump r order = Returns "").
Proof.
  destruct r as [rs|]; simpl; intros Hrange.
  - destruct (dumps_of_map rs order Hrange) as (Hpanic & Hdump & Hempty).
    split; [|split].
    + rewrite Hpanic. split.
      * intros [k Hk]. right. by exists rs, k.
      * intros [Hnone|(rs' & k & [= <-] & Hk)]; [discriminate | by exists k].
    + intros rs' [= <-]. exact Hdump.
    + intros [= ->]. by apply Hempty.
  - split; [|split; intros; discriminate].
    split; [by left | reflexivity].
Qed.

End Facts.

Lemma Responses_Results_sample :
  Responses_Results (Some sampleResponses)
    [("admission", Some sampleResponse)]
  = Returns ["r0"; "r1"].
Proof.
  assert (ReceiverRange (Some sampleResponses)
            [("admission", Some sampleResponse)])
    as Hrange
    by (unfold ReceiverRange, ResponsesRange, sampleResponses;
        by rewrite map_to_list_singleton).
  destruct (Responses_Results_gathers (Some sampleResponses) _ Hrange)
    as [_ H].
  destruct (H sampleResponses eq_refl) as [-> _]; [|reflexivity].
  intros k Hk. unfold sampleResponses in Hk.
  apply lookup_singleton_Some in Hk as [_ Hk]. discriminate Hk.
Defined.

Lemma Responses_TraceDump_sample :
  Responses_TraceDump string id (Some sampleResponses)
    [("admission", Some sampleResponse)]
  = Returns (TraceDump string id sampleResponse +:+ newline +:+ newline).
Proof.
  assert (ReceiverRange (Some sampleResponses)
            [("admission", Some sampleResponse)])
    as Hrange
    by (unfold ReceiverRange, ResponsesRange, sampleResponses;
        by rewrite map_to_list_singleton).
  destruct (Responses_TraceDump_text id (Some sampleResponses) _ Hrange)
    as (_ & H & _).
  rewrite (H sampleResponses eq_refl); [reflexivity|].
  intros k Hk. unfold sampleResponses in Hk.
  apply lookup_singleton_Some in Hk as [_ Hk]. discriminate Hk.
Defined.

End types_facts.
